(** * The Spotify client of [function-calling.py]

    A shallow embedding of the [SpotifyClient] class: its construction from
    the process environment, the cached client-credentials token, the
    authenticated GET with its single re-authentication on 401/403, and the
    translation of error responses into [SpotifyAPIError].

    Conventions of the embedding.
    - Python values coming out of [resp.json()] are terms of [json]
      ([JNull] is [None]).
    - [time.time()] and [_expires_at] are binary64 floats, the [spec_float]
      of the standard library with its correctly rounded [SFadd] and [SFsub];
      an [int] that meets a [float] is converted as Python does, to the
      nearest float, with [OverflowError] when there is none.  A [World] is
      expected to read valid floats from its clock.  Floats inside JSON
      bodies are kept as exact rationals.
    - The network, the clock and three library functions that the class
      calls but does not define ([base64.b64encode], [str()] of a compound
      value, [int()] of a [str]) are the fields of a [World].
    - Every method is a computation in [M]: it reads the world, updates the
      client object and the log of HTTP calls, and either returns or raises.
      Assignments made before an exception is raised stay in the state, as in
      Python. *)

From Stdlib Require Import ZArith QArith Bool String Ascii List Lia DecimalString.
From Stdlib Require Import SpecFloat.
Import ListNotations.
Local Open Scope string_scope.
Local Open Scope Z_scope.

(** ** Python values *)

#[warnings="-register-all"]
Inductive json : Type :=
| JNull
| JBool (b : bool)
| JInt (z : Z)
| JFloat (q : Q)
| JStr (s : string)
| JList (l : list json)
| JObj (kvs : list (string * json)).

(** A [dict] with [str] keys, in insertion order. *)
Definition dict (A : Type) := list (string * A).

Fixpoint lookup {A : Type} (k : string) (d : dict A) : option A :=
  match d with
  | [] => None
  | (k', v) :: d' => if String.eqb k k' then Some v else lookup k d'
  end.

(** [d[k] = v]: overwrite in place, or append a new key. *)
Fixpoint dict_set {A : Type} (k : string) (v : A) (d : dict A) : dict A :=
  match d with
  | [] => [(k, v)]
  | (k', v') :: d' =>
      if String.eqb k k' then (k', v) :: d' else (k', v') :: dict_set k v d'
  end.

(** Truth value of an [Optional[str]] and of a parsed value ([not x]). *)
Definition truthy_opt (o : option string) : bool :=
  match o with
  | Some s => negb (String.eqb s EmptyString)
  | None => false
  end.

Definition truthy (v : json) : bool :=
  match v with
  | JNull => false
  | JBool b => b
  | JInt z => negb (z =? 0)
  | JFloat q => negb (Qeq_bool q 0)
  | JStr s => negb (String.eqb s EmptyString)
  | JList l => match l with [] => false | _ => true end
  | JObj kvs => match kvs with [] => false | _ => true end
  end.

Definition of_opt (o : option string) : json :=
  match o with
  | Some s => JStr s
  | None => JNull
  end.

(** [str(n)] for an [int]. *)
Definition str_of_int (z : Z) : string := NilZero.string_of_int (Z.to_int z).

(** [f"{x}"] for an [Optional[str]]. *)
Definition fmt_opt (o : option string) : string :=
  match o with
  | Some s => s
  | None => "None"
  end.

(** [s.strip()], characters read as code points below 256. *)
Definition is_space (c : ascii) : bool :=
  let n := Z.of_nat (nat_of_ascii c) in
  ((9 <=? n) && (n <=? 13)) || ((28 <=? n) && (n <=? 32))
  || (n =? 133) || (n =? 160).

Fixpoint lstrip (s : string) : string :=
  match s with
  | EmptyString => EmptyString
  | String c s' => if is_space c then lstrip s' else s
  end.

Fixpoint rstrip (s : string) : string :=
  match s with
  | EmptyString => EmptyString
  | String c s' =>
      match rstrip s' with
      | EmptyString => if is_space c then EmptyString else String c EmptyString
      | r => String c r
      end
  end.

Definition strip (s : string) : string := rstrip (lstrip s).

(** [needle in hay]. *)
Fixpoint contains (needle hay : string) : bool :=
  prefix needle hay
  || match hay with
     | EmptyString => false
     | String _ hay' => contains needle hay'
     end.

(** ** Exceptions and results *)

Inductive transport_error : Type :=
| ConnectionError
| Timeout
| OtherRequestException (what : string).

Record Response : Type := mkResponse {
  status_code : Z;
  text : string;
  (** what [resp.json()] returns; [None] when the body is not JSON *)
  json_body : option json
}.

#[warnings="-register-all"]
Inductive exn : Type :=
| RuntimeError (msg : string)
| SpotifyAPIError (msg : string) (cause : option exn)
| RequestException (e : transport_error)
| HTTPError (resp : Response)
| JSONDecodeError
| ValueError
| KeyError (key : string)
| TypeError
| AttributeError
| AssertionError
| OverflowError.

Inductive result (A : Type) : Type :=
| Ok (a : A)
| Raise (e : exn).
Arguments Ok {A} a.
Arguments Raise {A} e.

Definition rbind {A B : Type} (r : result A) (k : A -> result B) : result B :=
  match r with
  | Ok a => k a
  | Raise e => Raise e
  end.

Declare Scope result_scope.
Delimit Scope result_scope with result.
Notation "x <- c ;; k" := (rbind c (fun x => k))
  (at level 61, c at next level, right associativity) : result_scope.

Fixpoint rmap {A B : Type} (f : A -> result B) (l : list A) : result (list B) :=
  match l with
  | [] => Ok []
  | a :: l' =>
      (b <- f a ;;
       bs <- rmap f l' ;;
       Ok (b :: bs))%result
  end.

(** *** Operations on parsed values *)

(** [v[key]] *)
Definition py_getitem (v : json) (key : string) : result json :=
  match v with
  | JObj d =>
      match lookup key d with
      | Some x => Ok x
      | None => Raise (KeyError key)
      end
  | _ => Raise TypeError
  end.

(** [v.get(key, default)] *)
Definition py_get (v : json) (key : string) (default : json) : result json :=
  match v with
  | JObj d =>
      match lookup key d with
      | Some x => Ok x
      | None => Ok default
      end
  | _ => Raise AttributeError
  end.

Fixpoint chars (s : string) : list json :=
  match s with
  | EmptyString => []
  | String c s' => JStr (String c EmptyString) :: chars s'
  end.

(** [for x in v] *)
Definition py_iter (v : json) : result (list json) :=
  match v with
  | JList l => Ok l
  | JObj d => Ok (map (fun kv => JStr (fst kv)) d)
  | JStr s => Ok (chars s)
  | _ => Raise TypeError
  end.

(** [sep.join(items)] *)
Fixpoint py_join (sep : string) (items : list json) : result string :=
  match items with
  | [] => Ok EmptyString
  | JStr s :: rest =>
      match rest with
      | [] => Ok s
      | _ => (r <- py_join sep rest ;; Ok (s ++ sep ++ r))%result
      end
  | _ :: _ => Raise TypeError
  end.

(** [resp.raise_for_status()] and [resp.json()] *)
Definition raise_for_status (resp : Response) : result unit :=
  if (400 <=? status_code resp) && (status_code resp <? 600)
  then Raise (HTTPError resp)
  else Ok tt.

Definition resp_json (resp : Response) : result json :=
  match json_body resp with
  | Some j => Ok j
  | None => Raise JSONDecodeError
  end.

(** ** Floats

    Binary64: 53 bits of precision, exponents below 1024. *)

Definition float : Type := spec_float.

(** The float nearest to an integer, ties to even; an infinity when the
    integer is out of range. *)
Definition float_of_Z (n : Z) : float := binary_normalize 53 1024 n 0 false.

(** [float("inf")] *)
Definition infinity : float := S754_infinity false.

(** [x + y], [x - y] and [x >= y] on floats. *)
Definition fadd (x y : float) : float := SFadd 53 1024 x y.
Definition fsub (x y : float) : float := SFsub 53 1024 x y.
Definition fge (x y : float) : bool := SFleb y x.

(** The conversion of the [int] operand of [float + int] and [float - int]:
    [OverflowError] ("int too large to convert to float") when the nearest
    float would be an infinity. *)
Definition float_of_int (n : Z) : result float :=
  match float_of_Z n with
  | S754_infinity _ => Raise OverflowError
  | f => Ok f
  end.

(** [x + n] and [x - n] for a float [x] and an [int] [n]. *)
Definition float_add_int (x : float) (n : Z) : result float :=
  (f <- float_of_int n ;; Ok (fadd x f))%result.

Definition float_sub_int (x : float) (n : Z) : result float :=
  (f <- float_of_int n ;; Ok (fsub x f))%result.

(** The float nearest to [n / 2^k], ties to even. *)
Definition dyadic (n : Z) (k : nat) : float :=
  binary_normalize 53 1024 n (- Z.of_nat k) false.

(** [p] shifted left by [k] bits. *)
Definition shl (p : positive) (k : nat) : positive := Nat.iter k xO p.

(** The float [n / 2^k] (or its opposite) for a positive integer [n] of at
    most 53 bits: the bits of [n] moved to the top of the mantissa. *)
Definition canon (s : bool) (n : positive) (k : nat) : float :=
  let d := Zpos (digits2_pos n) in
  S754_finite s (shl n (Z.to_nat (53 - d))) (d - 53 - Z.of_nat k).

(** The number that a float stands for. *)
Definition float_value (f : float) : option Q :=
  match f with
  | S754_zero _ => Some 0%Q
  | S754_finite s m e =>
      let magnitude :=
        match e with
        | Z0 => (Zpos m # 1)%Q
        | Zpos p => ((Zpos m * 2 ^ Zpos p) # 1)%Q
        | Zneg p => (Zpos m # (2 ^ p))%Q
        end in
      Some (if s then Qopp magnitude else magnitude)
  | _ => None
  end.

(** The float [f] stands for the rational [q]. *)
Definition float_is (f : float) (q : Q) : Prop :=
  exists v, float_value f = Some v /\ (v == q)%Q.

(** ** The world outside the client *)

Inductive call : Type :=
| POST (url : string) (data : dict string) (headers : dict string) (timeout : Z)
| GET (url : string) (headers : dict string) (params : dict json) (timeout : Z).

Inductive outcome : Type :=
| Fails (e : transport_error)
| Responds (r : Response).

Definition event : Type := call * outcome.

Record World : Type := mkWorld {
  (** answer to the [n]-th HTTP call of the run *)
  net : nat -> call -> outcome;
  (** value of the [n]-th [time.time()] of the run *)
  clock : nat -> float;
  (** [base64.b64encode(s.encode()).decode()] *)
  b64encode : string -> string;
  (** [str(v)] for a value that is neither [None], [bool], [int] nor [str] *)
  py_repr : json -> string;
  (** [int(s)] for a [str]; [None] is [ValueError] *)
  int_of_str : string -> option Z
}.

(** [str(v)], as an f-string applies it. *)
Definition py_str (w : World) (v : json) : string :=
  match v with
  | JStr s => s
  | JNull => "None"
  | JBool true => "True"
  | JBool false => "False"
  | JInt z => str_of_int z
  | _ => py_repr w v
  end.

(** [int(v)] *)
Definition py_int (w : World) (v : json) : result Z :=
  match v with
  | JInt z => Ok z
  | JBool b => Ok (if b then 1 else 0)
  | JFloat q => Ok (Z.quot (Qnum q) (Zpos (Qden q)))
  | JStr s =>
      match int_of_str w s with
      | Some z => Ok z
      | None => Raise ValueError
      end
  | _ => Raise TypeError
  end.

(** ** The client object *)

Record SpotifyClient : Type := mkClient {
  client_id : option string;
  client_secret : option string;
  market : option string;
  _token_override : option string;
  _access_token : json;
  _expires_at : float
}.

(** [now >= expires_at] *)
Definition expired (now : float) (expires_at : float) : bool :=
  fge now expires_at.

(** *** Construction *)

Definition Environ := string -> option string.

(** [__init__], lines 42 to 52; [getenv] is [os.getenv].  The [int] 0 of
    line 52 is kept as the float 0.0, which compares as it does. *)
Definition __init__ (getenv : Environ) : result SpotifyClient :=
  let client_id := getenv "SPOTIFY_CLIENT_ID" in
  let client_secret := getenv "SPOTIFY_CLIENT_SECRET" in
  let market := getenv "SPOTIFY_MARKET" in
  let token_override := getenv "SPOTIFY_ACCESS_TOKEN" in
  if negb (truthy_opt token_override)
     && (negb (truthy_opt client_id) || negb (truthy_opt client_secret))
  then Raise (RuntimeError
                "Missing SPOTIFY_CLIENT_ID or SPOTIFY_CLIENT_SECRET in environment.")
  else Ok (mkClient client_id client_secret market token_override JNull
                    (float_of_Z 0)).

(** ** Computations *)

Record Sys : Type := mkSys {
  self : SpotifyClient;
  trace : list event;      (* HTTP calls so far, oldest first *)
  reads : nat              (* clock readings so far *)
}.

Definition M (A : Type) : Type := World -> Sys -> result A * Sys.

Definition ret {A : Type} (a : A) : M A := fun _ s => (Ok a, s).

Definition raise {A : Type} (e : exn) : M A := fun _ s => (Raise e, s).

Definition bind {A B : Type} (c : M A) (k : A -> M B) : M B :=
  fun w s =>
    match c w s with
    | (Ok a, s') => k a w s'
    | (Raise e, s') => (Raise e, s')
    end.

Definition lift {A : Type} (r : result A) : M A := fun _ s => (r, s).

Declare Scope py_scope.
Delimit Scope py_scope with py.
Notation "x <- c ;; k" := (bind c (fun x => k))
  (at level 61, c at next level, right associativity) : py_scope.
Notation "c ;; k" := (bind c (fun _ => k))
  (at level 61, right associativity) : py_scope.

Definition get_self : M SpotifyClient := fun _ s => (Ok (self s), s).

Definition get_world : M World := fun w s => (Ok w, s).

(** State updates: attribute stores, a clock reading, a logged call. *)
Definition store_token (v : json) (s : Sys) : Sys :=
  let me := self s in
  mkSys (mkClient (client_id me) (client_secret me) (market me)
                  (_token_override me) v (_expires_at me))
        (trace s) (reads s).

Definition store_expiry (t : float) (s : Sys) : Sys :=
  let me := self s in
  mkSys (mkClient (client_id me) (client_secret me) (market me)
                  (_token_override me) (_access_token me) t)
        (trace s) (reads s).

Definition tick (s : Sys) : Sys := mkSys (self s) (trace s) (S (reads s)).

Definition logged (c : call) (o : outcome) (s : Sys) : Sys :=
  mkSys (self s) (trace s ++ [(c, o)]) (reads s).

Definition set_access_token (v : json) : M unit :=
  fun _ s => (Ok tt, store_token v s).

Definition set_expires_at (t : float) : M unit :=
  fun _ s => (Ok tt, store_expiry t s).

Definition time_time : M float :=
  fun w s => (Ok (clock w (reads s)), tick s).

Definition request (c : call) : M Response :=
  fun w s =>
    let o := net w (length (trace s)) c in
    match o with
    | Fails e => (Raise (RequestException e), logged c o s)
    | Responds r => (Ok r, logged c o s)
    end.

Definition requests_post (url : string) (data headers : dict string) (timeout : Z)
  : M Response := request (POST url data headers timeout).

Definition requests_get (url : string) (headers : dict string) (params : dict json)
  (timeout : Z) : M Response := request (GET url headers params timeout).

(** [params or {}] *)
Definition params_or_empty (params : option (dict json)) : dict json :=
  match params with
  | Some ((_ :: _) as p) => p
  | _ => []
  end.

(** ** Methods of [SpotifyClient] *)

Definition token_url : string := "https://accounts.spotify.com/api/token".

(** [_refresh_token], lines 54 to 76. *)
Definition _refresh_token : M unit :=
  (me <- get_self ;;
   if truthy_opt (_token_override me) then
     set_access_token (of_opt (_token_override me)) ;;
     set_expires_at infinity
   else
     w <- get_world ;;
     let auth_header :=
       b64encode w (fmt_opt (client_id me) ++ ":" ++ fmt_opt (client_secret me)) in
     let headers :=
       [("Authorization", "Basic " ++ auth_header);
        ("Content-Type", "application/x-www-form-urlencoded");
        ("Accept", "application/json")] in
     let data := [("grant_type", "client_credentials")] in
     resp <- requests_post token_url data headers 20 ;;
     lift (raise_for_status resp) ;;
     payload <- lift (resp_json resp) ;;
     tok <- lift (py_getitem payload "access_token") ;;
     set_access_token tok ;;
     now <- time_time ;;
     lifetime <- lift (l <- py_get payload "expires_in" (JInt 3600) ;;
                       py_int w l)%result ;;
     sum <- lift (float_add_int now lifetime) ;;
     expires_at <- lift (float_sub_int sum 60) ;;
     set_expires_at expires_at)%py.

(** [_get_token], lines 78 to 85.  The clock is read only when a token is
    cached, as [or] evaluates its right operand only then. *)
Definition _get_token : M json :=
  (me <- get_self ;;
   if truthy_opt (_token_override me) then
     ret (of_opt (_token_override me))
   else
     stale <- (if negb (truthy (_access_token me)) then ret true
               else now <- time_time ;; ret (expired now (_expires_at me))) ;;
     (if stale : bool then _refresh_token else ret tt) ;;
     me' <- get_self ;;
     match _access_token me' with
     | JNull => raise AssertionError
     | tok => ret tok
     end)%py.

(** [_extract_error_message], lines 106 to 137.  [resp.json()] raises
    nothing but the decoding error that the [except ValueError] handles. *)
Definition _extract_error_message (w : World) (resp : Response) : string :=
  let payload :=
    match resp_json resp with
    | Ok j => j
    | Raise _ => JObj []
    end in
  let status := status_code resp in
  let message :=
    match payload with
    | JObj d =>
        match lookup "error" d with
        | Some (JObj e) =>
            match lookup "message" e with
            | Some m => m
            | None => JNull
            end
        | Some (JStr s) => JStr s
        | _ => JNull
        end
    | _ => JNull
    end in
  let message :=
    if negb (truthy message) then
      match strip (text resp) with
      | EmptyString => JStr "Unknown Spotify API error"
      | t => JStr t
      end
    else message in
  if status =? 403 then
    "Spotify API returned 403 Forbidden: " ++ py_str w message ++ ". "
    ++ "For development apps, ensure the requested resource is available in your market "
    ++ "and consider using an Authorization Code token (set SPOTIFY_ACCESS_TOKEN)."
  else if status =? 404 then
    "Spotify API returned 404 Not Found: " ++ py_str w message ++ ". "
    ++ "This usually means one of the supplied IDs is invalid or unavailable in the current market."
  else
    "Spotify API error " ++ str_of_int status ++ ": " ++ py_str w message.

(** [resp.status_code in (401, 403)] *)
Definition auth_failure (resp : Response) : bool :=
  (status_code resp =? 401) || (status_code resp =? 403).

(** [_get], lines 87 to 104. *)
Definition _get (url : string) (params : option (dict json)) : M json :=
  (w <- get_world ;;
   tok <- _get_token ;;
   let headers :=
     [("Authorization", "Bearer " ++ py_str w tok);
      ("Accept", "application/json")] in
   resp <- requests_get url headers (params_or_empty params) 20 ;;
   me <- get_self ;;
   resp <- (if auth_failure resp && negb (truthy_opt (_token_override me)) then
              _refresh_token ;;
              tok' <- _get_token ;;
              let headers :=
                dict_set "Authorization" ("Bearer " ++ py_str w tok') headers in
              requests_get url headers (params_or_empty params) 20
            else ret resp) ;;
   match raise_for_status resp with
   | Raise (HTTPError _ as exc) =>
       raise (SpotifyAPIError (_extract_error_message w resp) (Some exc))
   | Raise e => raise e
   | Ok _ => lift (resp_json resp)
   end)%py.

(** [search_tracks], lines 139 to 161: the query parameters, then the
    request and the flattening of the returned items. *)
Definition search_params (me : SpotifyClient) (query : string) (limit : Z)
  : dict json :=
  let params :=
    [("q", JStr query);
     ("type", JStr "track");
     ("limit", JInt (Z.max 1 (Z.min limit 20)))] in
  if truthy_opt (market me) then dict_set "market" (of_opt (market me)) params
  else params.

Definition track_entry (t : json) : result json :=
  (id <- py_get t "id" JNull ;;
   name <- py_get t "name" JNull ;;
   artists <- py_get t "artists" (JList []) ;;
   artists <- py_iter artists ;;
   names <- rmap (fun a => py_get a "name" (JStr EmptyString)) artists ;;
   joined <- py_join ", " names ;;
   album <- py_get t "album" (JObj []) ;;
   album <- py_get album "name" JNull ;;
   urls <- py_get t "external_urls" (JObj []) ;;
   url <- py_get urls "spotify" JNull ;;
   preview <- py_get t "preview_url" JNull ;;
   Ok (JObj [("id", id); ("name", name); ("artists", JStr joined);
             ("album", album); ("url", url); ("preview_url", preview)]))%result.

Definition search_tracks (query : string) (limit : Z) : M (list json) :=
  (me <- get_self ;;
   let params := search_params me query limit in
   result <- _get "https://api.spotify.com/v1/search" (Some params) ;;
   lift (tracks <- py_get result "tracks" (JObj []) ;;
         items <- py_get tracks "items" (JList []) ;;
         items <- py_iter items ;;
         rmap track_entry items)%result)%py.

(** ** Callers

    A caller holds the client and invokes its methods one after the other,
    handling whatever each of them raises. *)

Inductive op : Type :=
| CallRefreshToken
| CallGetToken
| CallGet (url : string) (params : option (dict json))
| CallSearchTracks (query : string) (limit : Z).

Definition run_op (o : op) (w : World) (s : Sys) : Sys :=
  match o with
  | CallRefreshToken => snd (_refresh_token w s)
  | CallGetToken => snd (_get_token w s)
  | CallGet url params => snd (_get url params w s)
  | CallSearchTracks query limit => snd (search_tracks query limit w s)
  end.

Fixpoint run_ops (os : list op) (w : World) (s : Sys) : Sys :=
  match os with
  | [] => s
  | o :: os' => run_ops os' w (run_op o w s)
  end.

(** Views of the log. *)
Definition is_post (e : event) : bool :=
  match fst e with
  | POST _ _ _ _ => true
  | GET _ _ _ _ => false
  end.

Definition is_get (e : event) : bool := negb (is_post e).

Definition posts (t : list event) : list event := filter is_post t.
Definition gets (t : list event) : list event := filter is_get t.

(** ** The rest of the module

    [audio_features], the module-level client slot with [_get_spotify], the
    two tool functions and [_normalize_track_id]. *)

(** *** String operations of [_normalize_track_id] *)

Fixpoint rev_onto (acc s : string) : string :=
  match acc with
  | EmptyString => s
  | String c acc' => rev_onto acc' (String c s)
  end.

(** [s.split(sep)] for a non-empty [sep]: scan from the left, cut at every
    occurrence of [sep] and resume after it.  [cur] holds the current
    segment in reverse, [skip] the number of characters of a matched
    separator still to pass. *)
Fixpoint split_from (sep : string) (skip : nat) (cur s : string) : list string :=
  match s with
  | EmptyString => [rev_onto cur EmptyString]
  | String c s' =>
      match skip with
      | S k => split_from sep k cur s'
      | O =>
          if prefix sep s
          then rev_onto cur EmptyString
               :: split_from sep (String.length sep - 1) EmptyString s'
          else split_from sep O (String c cur) s'
      end
  end.

Definition py_split (sep s : string) : list string :=
  split_from sep 0 EmptyString s.

(** [_normalize_track_id], lines 209 to 216; [l[-1]] and [l[0]] of a list
    that [split] returns, which is never empty. *)
Definition _normalize_track_id (value : string) : string :=
  let value := strip value in
  if prefix "spotify:track:" value then
    last (py_split ":" value) EmptyString
  else if contains "open.spotify.com/track" value then
    let segment := last (py_split "track/" value) EmptyString in
    hd EmptyString (py_split "?" segment)
  else value.

(** *** [audio_features] *)

Definition feature_keys : list string :=
  ["tempo"; "danceability"; "energy"; "valence"; "acousticness";
   "instrumentalness"; "liveness"; "speechiness"; "loudness"; "time_signature"].

Definition audio_features_url : string :=
  "https://api.spotify.com/v1/audio-features".

(** Lines 165 to 168: the first element of the [audio_features] list, or
    [None]. *)
Definition first_feature (data : json) : json :=
  let items :=
    match data with
    | JObj d =>
        match lookup "audio_features" d with
        | Some v => v
        | None => JNull
        end
    | _ => JNull
    end in
  match items with
  | JList (x :: _) => x
  | _ => JNull
  end.

(** [audio_features], lines 163 to 185. *)
Definition audio_features (track_id : string) : M (dict json) :=
  (data <- _get audio_features_url (Some [("ids", JStr track_id)]) ;;
   let feature_obj := first_feature data in
   if negb (truthy feature_obj) then
     raise (SpotifyAPIError
              ("Spotify did not return audio features for track '"
               ++ track_id ++ "'.") None)
   else
     lift (rmap (fun k => (v <- py_get feature_obj k JNull ;; Ok (k, v))%result)
                feature_keys))%py.

(** *** The module-level client and the tools *)

(** The state of the module: the global [spotify], which is [None] until the
    first tool call, and the log and clock position of the process.  The
    global holds the client object itself, so what a method does to the
    client is what later calls find there. *)
Record Process : Type := mkProcess {
  spotify : option SpotifyClient;
  http_log : list event;
  clock_reads : nat
}.

(** [_get_spotify], lines 192 to 196. *)
Definition _get_spotify (getenv : Environ) (p : Process)
  : result SpotifyClient * Process :=
  match spotify p with
  | Some client => (Ok client, p)
  | None =>
      match __init__ getenv with
      | Ok client => (Ok client, mkProcess (Some client) (http_log p) (clock_reads p))
      | Raise e => (Raise e, p)
      end
  end.

(** [_get_spotify().method(...)]: the method runs on the object in the
    global. *)
Definition on_spotify {A : Type} (method : M A) (w : World) (getenv : Environ)
  (p : Process) : result A * Process :=
  match _get_spotify getenv p with
  | (Raise e, p') => (Raise e, p')
  | (Ok client, p') =>
      let (r, s) := method w (mkSys client (http_log p') (clock_reads p')) in
      (r, mkProcess (Some (self s)) (trace s) (reads s))
  end.

(** [spotify_search_tracks], lines 200 to 206; [limit] defaults to 5. *)
Definition spotify_search_tracks (query : string) (limit : option Z)
  : World -> Environ -> Process -> result (list json) * Process :=
  let limit := match limit with Some l => l | None => 5 end in
  on_spotify (search_tracks query limit).

(** [spotify_track_features], lines 220 to 224. *)
Definition spotify_track_features (track_id : string)
  : World -> Environ -> Process -> result (dict json) * Process :=
  let clean_id := _normalize_track_id track_id in
  on_spotify (audio_features clean_id).

(** * Vocabulary of the statements

    Names for the calls the client makes, for the stretches of its methods
    that the lemmas below reason about one at a time, and for the conditions
    the statements speak of. *)

(** A client is static when it was given a token: [if self._token_override]. *)
Definition is_static (me : SpotifyClient) : Prop :=
  truthy_opt (_token_override me) = true.

Definition not_static (me : SpotifyClient) : Prop :=
  truthy_opt (_token_override me) = false.

(** The token-exchange POST of [_refresh_token]. *)
Definition token_call (w : World) (me : SpotifyClient) : call :=
  POST token_url
       [("grant_type", "client_credentials")]
       [("Authorization",
         "Basic " ++ b64encode w (fmt_opt (client_id me) ++ ":"
                                  ++ fmt_opt (client_secret me)));
        ("Content-Type", "application/x-www-form-urlencoded");
        ("Accept", "application/json")]
       20.

(** The resource GET of [_get] carrying the bearer token [tok]. *)
Definition resource_call (w : World) (tok : json) (url : string)
  (params : option (dict json)) : call :=
  GET url
      [("Authorization", "Bearer " ++ py_str w tok);
       ("Accept", "application/json")]
      (params_or_empty params)
      20.

(** The value of [time.time() + int(...) - 60] at a clock value and a
    lifetime: both [int] operands are converted to floats, and the sum and
    the difference are rounded. *)
Definition stored_expiry (now : float) (lifetime : Z) : result float :=
  (sum <- float_add_int now lifetime ;; float_sub_int sum 60)%result.

(** What the tail of [_refresh_token] does with an answer of the token
    endpoint: lines 72 to 76. *)
Definition absorb_token_response (w : World) (resp : Response) (s : Sys)
  : result unit * Sys :=
  match raise_for_status resp with
  | Raise e => (Raise e, s)
  | Ok _ =>
      match resp_json resp with
      | Raise e => (Raise e, s)
      | Ok payload =>
          match py_getitem payload "access_token" with
          | Raise e => (Raise e, s)
          | Ok tok =>
              let s1 := tick (store_token tok s) in
              match (l <- py_get payload "expires_in" (JInt 3600) ;;
                     lifetime <- py_int w l ;;
                     stored_expiry (clock w (reads s)) lifetime)%result with
              | Raise e => (Raise e, s1)
              | Ok expires_at => (Ok tt, store_expiry expires_at s1)
              end
          end
      end
  end.

(** The check at the end of [_get_token]. *)
Definition checked_token (s : Sys) : result json * Sys :=
  match _access_token (self s) with
  | JNull => (Raise AssertionError, s)
  | tok => (Ok tok, s)
  end.

(** The end of [_get]: lines 99 to 104. *)
Definition deliver (w : World) (resp : Response) (s : Sys) : result json * Sys :=
  match raise_for_status resp with
  | Raise (HTTPError _ as exc) =>
      (Raise (SpotifyAPIError (_extract_error_message w resp) (Some exc)), s)
  | Raise e => (Raise e, s)
  | Ok _ => (resp_json resp, s)
  end.

(** The re-authentication of [_get]: lines 95 to 97. *)
Definition reauthenticate (w : World) (url : string) (params : option (dict json))
  (s : Sys) : result Response * Sys :=
  match _refresh_token w s with
  | (Raise e, s1) => (Raise e, s1)
  | (Ok _, s1) =>
      match _get_token w s1 with
      | (Raise e, s2) => (Raise e, s2)
      | (Ok tok, s2) => request (resource_call w tok url params) w s2
      end
  end.

(** An event that [_get url params] may log. *)
Definition made_by_get (w : World) (url : string) (params : option (dict json))
  (e : event) : Prop :=
  is_post e = true \/ exists tok, fst e = resource_call w tok url params.

(** A credential that is set and not the empty string. *)
Definition provided (o : option string) : Prop :=
  exists s, o = Some s /\ s <> EmptyString.

(** The error of [__init__]. *)
Definition missing_credentials : exn :=
  RuntimeError "Missing SPOTIFY_CLIENT_ID or SPOTIFY_CLIENT_SECRET in environment.".

(** The operations of a caller that go through [_get]. *)
Definition is_resource_op (o : op) : bool :=
  match o with
  | CallGet _ _ | CallSearchTracks _ _ => true
  | CallRefreshToken | CallGetToken => false
  end.

(** The message that [_extract_error_message] finds before it adds the
    status-specific text: lines 108 to 122, formatted as the f-string does. *)
Definition error_detail (w : World) (resp : Response) : string :=
  let found :=
    match json_body resp with
    | Some (JObj d) =>
        match lookup "error"%string d with
        | Some (JObj e) =>
            match lookup "message"%string e with
            | Some m => m
            | None => JNull
            end
        | Some (JStr s) => JStr s
        | _ => JNull
        end
    | _ => JNull
    end in
  if truthy found then py_str w found
  else match strip (text resp) with
       | EmptyString => "Unknown Spotify API error"%string
       | t => t
       end.

(** The lifetime a token response announces: its [expires_in] made an
    [int], or 3600 when the field is absent. *)
Definition announced_lifetime (w : World) (d : dict json) : result Z :=
  match lookup "expires_in"%string d with
  | Some v => py_int w v
  | None => Ok 3600
  end.

(** [_get] once it holds a token: lines 88 to 104. *)
Definition fetch (w : World) (url : string) (params : option (dict json))
  (tok : json) (s : Sys) : result json * Sys :=
  match request (resource_call w tok url params) w s with
  | (Raise e, s1) => (Raise e, s1)
  | (Ok resp, s1) =>
      if auth_failure resp && negb (truthy_opt (_token_override (self s1)))
      then
        match reauthenticate w url params s1 with
        | (Raise e, s2) => (Raise e, s2)
        | (Ok resp', s2) => deliver w resp' s2
        end
      else deliver w resp s1
  end.


(** What token acquisition can raise: the transport error or the
    [HTTPError] of the POST, or an error met while reading its answer. *)
Definition acquisition_error (e : exn) : bool :=
  match e with
  | RequestException _ | HTTPError _ | JSONDecodeError
  | KeyError _ | TypeError | ValueError | OverflowError => true
  | _ => false
  end.

(** The status range on which [raise_for_status] raises. *)
Definition error_status (r : Response) : Prop :=
  400 <= status_code r < 600.

(** The URL that [search_tracks] queries. *)
Definition search_url : string := "https://api.spotify.com/v1/search".

(** A search request carrying the parameters [params]. *)
Definition search_request (w : World) (params : dict json) (e : event) : Prop :=
  exists tok,
    fst e = GET search_url
                [("Authorization", "Bearer " ++ py_str w tok);
                 ("Accept", "application/json")]%string
                params 20.

(** * Sample runs *)

(** A world that answers the [n]-th call with the [n]-th outcome of a script
    (a connection error once the script is used up) and the [n]-th clock
    reading with the [n]-th time of a list (0.0 after that).  Its library
    functions are
    stand-ins: the identity for base64, a fixed text for [str()] of compound
    values, and an [int()] that rejects every string. *)

Definition scripted (answers : list outcome) (times : list float) : World :=
  mkWorld (fun n _ => nth n answers (Fails ConnectionError))
          (fun n => nth n times (float_of_Z 0))
          (fun s => s)
          (fun _ => "<object>")
          (fun _ => None).

Definition fresh (me : SpotifyClient) : Sys := mkSys me [] 0.

Definition env_of (d : dict string) : Environ := fun name => lookup name d.

(** Clients: one with a static token, one before its first token, one
    holding a token that expires at time 100. *)
Definition static_client : SpotifyClient :=
  mkClient None None None (Some "BQD-static")%string JNull (float_of_Z 0).

Definition dynamic_client : SpotifyClient :=
  mkClient (Some "id") (Some "secret") None None JNull (float_of_Z 0).

Definition cached_client : SpotifyClient :=
  mkClient (Some "id") (Some "secret") None None (JStr "BQC-0")%string
           (float_of_Z 100).

(** Answers of the services. *)
Definition unauthorized : Response :=
  mkResponse 401 EmptyString
    (Some (JObj [("error", JObj [("status", JInt 401);
                                 ("message", JStr "The access token expired")])]))%string.

Definition forbidden : Response :=
  mkResponse 403 EmptyString
    (Some (JObj [("error", JObj [("status", JInt 403);
                                 ("message", JStr "Forbidden")])]))%string.

Definition ok_response : Response :=
  mkResponse 200 "{}" (Some (JObj [("tracks", JObj [("items", JList [])])]))%string.

Definition token_response (tok : string) (lifetime : Z) : Response :=
  mkResponse 200 EmptyString
    (Some (JObj [("access_token", JStr tok); ("token_type", JStr "Bearer");
                 ("expires_in", JInt lifetime)]))%string.

(** The double quote, and the body text [{"error": {"message": "invalid id"}}]. *)
Definition dq : string := String (ascii_of_nat 34) EmptyString.

Definition invalid_id_text : string :=
  ("{" ++ dq ++ "error" ++ dq ++ ": {" ++ dq ++ "message" ++ dq ++ ": "
   ++ dq ++ "invalid id" ++ dq ++ "}}")%string.

Definition invalid_id_response : Response :=
  mkResponse 404 invalid_id_text
             (Some (JObj [("error", JObj [("message", JStr "invalid id")])]))%string.

(** * Vocabulary for the rest of the module *)

(** Every character of [s] satisfies [p]; some character of [s] is [c]. *)
Fixpoint all_chars (p : ascii -> bool) (s : string) : bool :=
  match s with
  | EmptyString => true
  | String c s' => p c && all_chars p s'
  end.

Fixpoint has_char (c : ascii) (s : string) : bool :=
  match s with
  | EmptyString => false
  | String a s' => Ascii.eqb a c || has_char c s'
  end.

(** The characters of a Spotify id: digits and ASCII letters. *)
Definition is_alnum (c : ascii) : bool :=
  let n := Z.of_nat (nat_of_ascii c) in
  ((48 <=? n) && (n <=? 57)) || ((65 <=? n) && (n <=? 90))
  || ((97 <=? n) && (n <=? 122)).

Definition base62 (s : string) : Prop := all_chars is_alnum s = true.

(** A query string: no white space and no slash. *)
Definition query_char (c : ascii) : bool :=
  negb (is_space c) && negb (Ascii.eqb c "/").

Definition track_uri_prefix : string := "spotify:track:".
Definition track_url_prefix : string := "https://open.spotify.com/track/".

(** A string that is empty or starts with a character that is no white
    space is left alone by [lstrip]; [lstrip] and [rstrip] produce and keep
    such strings. *)
Definition headed (s : string) : bool :=
  match s with
  | EmptyString => true
  | String c _ => negb (is_space c)
  end.

(** The answers in which [audio_features] finds no feature object. *)
Inductive no_features : json -> Prop :=
| nf_not_object (data : json) :
    (forall d, data <> JObj d) -> no_features data
| nf_no_key (d : dict json) :
    lookup "audio_features"%string d = None -> no_features (JObj d)
| nf_not_list (d : dict json) (v : json) :
    lookup "audio_features"%string d = Some v ->
    (forall l, v <> JList l) -> no_features (JObj d)
| nf_empty (d : dict json) :
    lookup "audio_features"%string d = Some (JList []) -> no_features (JObj d)
| nf_falsy (d : dict json) (x : json) (rest : list json) :
    lookup "audio_features"%string d = Some (JList (x :: rest)) ->
    truthy x = false -> no_features (JObj d).

(** The error of [audio_features] for the track [track_id]. *)
Definition no_features_error (track_id : string) : exn :=
  SpotifyAPIError
    ("Spotify did not return audio features for track '" ++ track_id ++ "'.")%string
    None.

(** The value that [d.get(k)] gives. *)
Definition get_or_none (d : dict json) (k : string) : json :=
  match lookup k d with
  | Some v => v
  | None => JNull
  end.

(** The request of [audio_features] for [track_id], with some bearer token. *)
Definition features_request (w : World) (track_id : string) (e : event) : Prop :=
  exists tok,
    fst e = GET audio_features_url
                [("Authorization", "Bearer " ++ py_str w tok);
                 ("Accept", "application/json")]%string
                [("ids", JStr track_id)]%string 20.

(** An answer of the audio-features endpoint with the given list. *)
Definition features_answer (first : list json) : Response :=
  mkResponse 200 EmptyString (Some (JObj [("audio_features", JList first)]))%string.

(** The four attributes that [__init__] reads from the environment. *)
Definition same_config (a b : SpotifyClient) : Prop :=
  client_id a = client_id b
  /\ client_secret a = client_secret b
  /\ market a = market b
  /\ _token_override a = _token_override b.

(** A computation that leaves them as they are, in every world and state. *)
Definition keeps_config {A : Type} (m : M A) : Prop :=
  forall w s, same_config (self (snd (m w s))) (self s).

(** The state in which a method of the client [c] runs in the process [p],
    and the process after it. *)
Definition running (c : SpotifyClient) (p : Process) : Sys :=
  mkSys c (http_log p) (clock_reads p).

Definition process_of (s : Sys) : Process :=
  mkProcess (Some (self s)) (trace s) (reads s).

(** A process before its first tool call. *)
Definition started : Process := mkProcess None [] 0.




(** The name that [search_tracks] takes from an artist object: its [name],
    or the empty string. *)
Definition artist_name (a : json) : json :=
  match a with
  | JObj ad =>
      match lookup "name"%string ad with
      | Some v => v
      | None => JStr EmptyString
      end
  | _ => JNull
  end.

Definition is_object (v : json) : Prop := exists d, v = JObj d.

(** A member that is absent or an object, as [t.get(key, {}).get(...)]
    needs it. *)
Definition object_or_absent (key : string) (d : dict json) : Prop :=
  lookup key d = None \/ exists o, lookup key d = Some (JObj o).

(** The value of [t.get(key, {}).get(field)]. *)
Definition nested (key field : string) (d : dict json) : json :=
  match lookup key d with
  | Some (JObj o) => get_or_none o field
  | _ => JNull
  end.

(** The six keys of a track that [search_tracks] returns. *)
Definition track_keys : list string :=
  ["id"; "name"; "artists"; "album"; "url"; "preview_url"]%string.

(** The items that [search_tracks] goes through: lines 148 and 150. *)
Definition listed_items (found : json) : result (list json) :=
  (tracks <- py_get found "tracks" (JObj []) ;;
   items <- py_get tracks "items" (JList []) ;;
   py_iter items)%result.

(** A search answer with the given items. *)
Definition search_answer (items : list json) : Response :=
  mkResponse 200 EmptyString
             (Some (JObj [("tracks", JObj [("items", JList items)])]))%string.

(** An event that [_get url params] of the client [me] may log: the token
    POST of [me], or the resource GET with some bearer token. *)
Definition sent_by_get (w : World) (me : SpotifyClient) (url : string)
  (params : option (dict json)) (e : event) : Prop :=
  fst e = token_call w me \/ exists tok, fst e = resource_call w tok url params.

(** The log of the process [p'] that a tool call leaves when it has run, on
    the client [c] in the process [p], a method that goes through
    [_get url params]: the log of [p] grown by token POSTs of [c] and GETs of
    [url] with [params] only; if [_get_token] provides a token, grown by the
    token POSTs of [_get_token], then the GET with that token, as the world
    answered it, then what a retry adds; and if [_get_token] raises, grown
    by token POSTs only. *)
Definition tool_log (w : World) (c : SpotifyClient) (p : Process)
  (url : string) (params : option (dict json)) (p' : Process) : Prop :=
  exists new,
    http_log p' = (http_log p ++ new)%list
    /\ Forall (sent_by_get w c url params) new
    /\ (forall tok s1,
           _get_token w (running c p) = (Ok tok, s1) ->
           let get := resource_call w tok url params in
           exists pre rest,
             trace s1 = (http_log p ++ pre)%list
             /\ Forall (fun e => fst e = token_call w c) pre
             /\ new = (pre ++ (get, net w (length (trace s1)) get) :: rest)%list)
    /\ (forall e s1,
           _get_token w (running c p) = (Raise e, s1) ->
           Forall (fun e => fst e = token_call w c) new).

(** * Properties *)

(** ** Floats

    Multiples of [2^-k] with at most 53 bits are floats, and on them
    conversion, sum, difference and comparison are exact. *)

Lemma shl_add (p : positive) (j k : nat) : shl (shl p j) k = shl p (j + k).
Proof.
  unfold shl. rewrite Nat.add_comm. now rewrite Nat.iter_add.
Qed.

Lemma shl_Z (p : positive) (k : nat) : Zpos (shl p k) = Zpos p * 2 ^ Z.of_nat k.
Proof.
  induction k as [|k IH].
  - cbn. lia.
  - change (shl p (S k)) with (xO (shl p k)).
    rewrite Pos2Z.inj_xO, IH, Nat2Z.inj_succ, Z.pow_succ_r by lia. lia.
Qed.

Lemma shl_digits (p : positive) (k : nat) :
  Zpos (digits2_pos (shl p k)) = Zpos (digits2_pos p) + Z.of_nat k.
Proof.
  induction k as [|k IH].
  - cbn. lia.
  - change (shl p (S k)) with (xO (shl p k)). cbn [digits2_pos].
    rewrite Pos2Z.inj_succ, IH. lia.
Qed.

Lemma iter_xO (p j : positive) : Pos.iter xO p j = shl p (Pos.to_nat j).
Proof. unfold shl. now rewrite Pos2Nat.inj_iter. Qed.

Lemma iter_pos_nat {A : Type} (f : A -> A) (p : positive) (x : A) :
  iter_pos f p x = Nat.iter (Pos.to_nat p) f x.
Proof.
  revert x. induction p as [p IH|p IH|]; intros x; cbn [iter_pos].
  - rewrite !IH, Pos2Nat.inj_xI.
    replace (S (2 * Pos.to_nat p))%nat
      with (Pos.to_nat p + (Pos.to_nat p + 1))%nat by lia.
    rewrite !Nat.iter_add. reflexivity.
  - rewrite !IH, Pos2Nat.inj_xO.
    replace (2 * Pos.to_nat p)%nat with (Pos.to_nat p + Pos.to_nat p)%nat by lia.
    now rewrite Nat.iter_add.
  - reflexivity.
Qed.

Lemma shr_shl (p : positive) (k : nat) :
  Nat.iter k shr_1 (Build_shr_record (Zpos (shl p k)) false false)
  = Build_shr_record (Zpos p) false false.
Proof.
  induction k as [|k IH]; [reflexivity|].
  rewrite Nat.iter_succ_r. change (shl p (S k)) with (xO (shl p k)).
  cbn [shr_1 orb]. exact IH.
Qed.

Lemma digits_log2 (n : positive) :
  Zpos (digits2_pos n) = Z.log2 (Zpos n) + 1.
Proof.
  induction n as [n IH|n IH|]; [| |reflexivity].
  - cbn [digits2_pos]. rewrite Pos2Z.inj_succ, IH.
    rewrite Pos2Z.inj_xI, Z.log2_succ_double; lia.
  - cbn [digits2_pos]. rewrite Pos2Z.inj_succ, IH.
    rewrite Pos2Z.inj_xO, Z.log2_double; lia.
Qed.

Lemma digits_le_53 (n : positive) :
  Zpos n < 2 ^ 53 -> Zpos (digits2_pos n) <= 53.
Proof.
  intros H. rewrite digits_log2.
  assert (Z.log2 (Zpos n) < 53) by (apply Z.log2_lt_pow2; lia). lia.
Qed.

Lemma digits_bounds (n : positive) :
  2 ^ (Zpos (digits2_pos n) - 1) <= Zpos n < 2 ^ Zpos (digits2_pos n).
Proof.
  rewrite digits_log2.
  replace (Z.log2 (Zpos n) + 1 - 1) with (Z.log2 (Zpos n)) by lia.
  apply Z.log2_spec. lia.
Qed.

Lemma binary_round_exact (s : bool) (n : positive) (j k : nat) :
  Zpos (digits2_pos n) <= 53 -> (k <= 1022)%nat ->
  binary_round 53 1024 s (shl n j) (- Z.of_nat j - Z.of_nat k) = canon s n k.
Proof.
  intros D Kb. unfold canon. set (d := Zpos (digits2_pos n)) in *.
  assert (d1 : 1 <= d) by (subst d; lia).
  set (z := Z.of_nat k). assert (Kz : 0 <= z <= 1022) by (subst z; lia).
  unfold binary_round.
  rewrite shl_digits. fold d.
  replace (d + Z.of_nat j + (- Z.of_nat j - z)) with (d - z) by lia.
  assert (F : fexp 53 1024 (d - z) = d - 53 - z).
  { unfold fexp, emin. lia. }
  rewrite F.
  assert (A : exists m e,
             shl_align (shl n j) (- Z.of_nat j - z) (d - 53 - z) = (m, e)
             /\ exists i, m = shl n i /\ e = - Z.of_nat i - z
                          /\ (Z.to_nat (53 - d) <= i)%nat).
  { unfold shl_align.
    destruct (d - 53 - z - (- Z.of_nat j - z)) as [|q|q] eqn:E.
    - eexists. eexists. split; [reflexivity|]. exists j. repeat split; lia.
    - eexists. eexists. split; [reflexivity|]. exists j. repeat split; lia.
    - eexists. eexists. split; [reflexivity|].
      exists (Z.to_nat (53 - d)). rewrite iter_xO, shl_add.
      repeat split; try lia. f_equal. lia. }
  destruct A as (m & e & -> & i & -> & -> & J).
  unfold binary_round_aux, shr_fexp, shr_record_of_loc.
  cbn [Zdigits2]. rewrite shl_digits. fold d.
  replace (d + Z.of_nat i + (- Z.of_nat i - z)) with (d - z) by lia. rewrite F.
  assert (S1 : shr (Build_shr_record (Zpos (shl n i)) false false)
                   (- Z.of_nat i - z) (d - 53 - z - (- Z.of_nat i - z))
               = (Build_shr_record (Zpos (shl n (Z.to_nat (53 - d)))) false false,
                  d - 53 - z)).
  { unfold shr. destruct (d - 53 - z - (- Z.of_nat i - z)) as [|q|q] eqn:E.
    - f_equal; [|lia]. do 3 f_equal. lia.
    - rewrite iter_pos_nat.
      replace (shl n i) with (shl (shl n (Z.to_nat (53 - d))) (Pos.to_nat q))
        by (rewrite shl_add; f_equal; lia).
      rewrite shr_shl. f_equal. lia.
    - lia. }
  rewrite S1. cbv beta iota. cbn [shr_m loc_of_shr_record round_nearest_even Zdigits2].
  rewrite shl_digits. fold d.
  replace (d + Z.of_nat (Z.to_nat (53 - d)) + (d - 53 - z)) with (d - z) by lia.
  rewrite F. replace (d - 53 - z - (d - 53 - z)) with 0 by lia.
  cbn [shr shr_m].
  replace (d - 53 - z <=? 1024 - 53) with true by (symmetry; apply Z.leb_le; lia).
  reflexivity.
Qed.

Lemma dyadic_pos (n : positive) (k : nat) :
  Zpos n < 2 ^ 53 -> (k <= 1022)%nat -> dyadic (Zpos n) k = canon false n k.
Proof.
  intros H K. unfold dyadic. cbn [binary_normalize].
  exact (binary_round_exact false n 0 k (digits_le_53 n H) K).
Qed.

Lemma float_of_pos (n : positive) :
  Zpos n < 2 ^ 53 -> float_of_Z (Zpos n) = canon false n 0.
Proof. intros H. apply (dyadic_pos n 0 H). lia. Qed.

Lemma shl_align_fst (m : positive) (ex ez : Z) :
  ez <= ex -> fst (shl_align m ex ez) = shl m (Z.to_nat (ex - ez)).
Proof.
  intros H. unfold shl_align.
  destruct (ez - ex) as [|q|q] eqn:E; cbn [fst].
  - replace (ex - ez) with 0 by lia. reflexivity.
  - lia.
  - rewrite iter_xO. f_equal. lia.
Qed.

Lemma aligned (a : positive) (z ez : Z) :
  Zpos (digits2_pos a) <= 53 -> ez <= Zpos (digits2_pos a) - 53 - z ->
  fst (shl_align (shl a (Z.to_nat (53 - Zpos (digits2_pos a))))
         (Zpos (digits2_pos a) - 53 - z) ez)
  = shl a (Z.to_nat (- z - ez)).
Proof.
  intros D E. rewrite (shl_align_fst _ _ _ E), shl_add. f_equal. lia.
Qed.

Lemma fadd_canon (a b : positive) (k : nat) :
  Zpos a + Zpos b < 2 ^ 53 -> (k <= 1022)%nat ->
  fadd (canon false a k) (canon false b k) = canon false (a + b) k.
Proof.
  intros H Kb.
  pose proof (digits_le_53 a ltac:(lia)) as Da.
  pose proof (digits_le_53 b ltac:(lia)) as Db.
  pose proof (digits_le_53 (a + b) ltac:(lia)) as Dab.
  unfold fadd, canon at 1 2. cbn [SFadd cond_Zopp].
  set (ez := Z.min _ _).
  rewrite (aligned a (Z.of_nat k) ez Da), (aligned b (Z.of_nat k) ez Db)
    by (subst ez; lia).
  set (K := Z.to_nat (- Z.of_nat k - ez)).
  assert (E : Zpos (shl a K) + Zpos (shl b K) = Zpos (shl (a + b) K)).
  { rewrite !shl_Z, Pos2Z.inj_add. lia. }
  rewrite E. cbn [binary_normalize].
  replace ez with (- Z.of_nat K - Z.of_nat k) by lia.
  now apply binary_round_exact.
Qed.

Lemma fsub_canon (a b : positive) (k : nat) :
  Zpos b <= Zpos a < 2 ^ 53 -> (k <= 1022)%nat ->
  fsub (canon false a k) (canon false b k) = dyadic (Zpos a - Zpos b) k.
Proof.
  intros H Kb.
  pose proof (digits_le_53 a ltac:(lia)) as Da.
  pose proof (digits_le_53 b ltac:(lia)) as Db.
  unfold fsub, canon at 1 2. cbn [SFsub cond_Zopp].
  set (ez := Z.min _ _).
  rewrite (aligned a (Z.of_nat k) ez Da), (aligned b (Z.of_nat k) ez Db)
    by (subst ez; lia).
  set (K := Z.to_nat (- Z.of_nat k - ez)).
  assert (E : Zpos (shl a K) - Zpos (shl b K)
              = (Zpos a - Zpos b) * 2 ^ Z.of_nat K).
  { rewrite !shl_Z. lia. }
  rewrite E.
  destruct (Zpos a - Zpos b) as [|c|c] eqn:C; [reflexivity| |lia].
  rewrite <- shl_Z. cbn [binary_normalize].
  replace ez with (- Z.of_nat K - Z.of_nat k) by lia.
  rewrite binary_round_exact by (try apply digits_le_53; lia).
  symmetry. apply dyadic_pos; lia.
Qed.

(** Multiples of [2^-k] between 0 and [2^(53-k)] are floats, and [+] and
    [-] are exact on them. *)
Lemma fadd_exact (a b : Z) (k : nat) :
  0 <= a -> 0 <= b -> a + b < 2 ^ 53 -> (k <= 1022)%nat ->
  fadd (dyadic a k) (dyadic b k) = dyadic (a + b) k.
Proof.
  intros A B H Kb.
  destruct a as [|a|a]; [|destruct b as [|b|b]|]; try lia.
  - destruct b as [|b|b]; try lia; [reflexivity|].
    cbn [Z.add]. rewrite (dyadic_pos b) by lia. reflexivity.
  - rewrite Z.add_0_r, (dyadic_pos a) by lia. reflexivity.
  - rewrite (dyadic_pos a), (dyadic_pos b) by lia.
    rewrite fadd_canon by lia. symmetry. apply (dyadic_pos (a + b)); lia.
Qed.

Lemma fsub_exact (a b : Z) (k : nat) :
  0 <= b -> b <= a -> a < 2 ^ 53 -> (k <= 1022)%nat ->
  fsub (dyadic a k) (dyadic b k) = dyadic (a - b) k.
Proof.
  intros B A H Kb.
  destruct a as [|a|a]; [|destruct b as [|b|b]|]; try lia.
  - destruct b as [|b|b]; try lia. reflexivity.
  - rewrite Z.sub_0_r, (dyadic_pos a) by lia. reflexivity.
  - rewrite (dyadic_pos a), (dyadic_pos b) by lia.
    apply fsub_canon; lia.
Qed.

(** An integer is the same float whatever the unit it is counted in. *)
Lemma dyadic_scale (n : Z) (k : nat) :
  0 <= n -> n * 2 ^ Z.of_nat k < 2 ^ 53 -> (k <= 1022)%nat ->
  dyadic (n * 2 ^ Z.of_nat k) k = float_of_Z n.
Proof.
  intros N H Kb.
  assert (P : 0 < 2 ^ Z.of_nat k) by (apply Z.pow_pos_nonneg; lia).
  destruct n as [|n|n]; [reflexivity| |lia].
  rewrite <- shl_Z.
  assert (Hn : Zpos n < 2 ^ 53) by nia.
  rewrite dyadic_pos, float_of_pos; try assumption; [|now rewrite shl_Z].
  unfold canon. rewrite shl_digits.
  pose proof (digits_le_53 (shl n k) ltac:(now rewrite shl_Z)) as D.
  rewrite shl_digits in D.
  rewrite shl_add. f_equal; [f_equal|]; lia.
Qed.

Lemma canon_compare (a b : positive) (k : nat) :
  Zpos a < 2 ^ 53 -> Zpos b < 2 ^ 53 ->
  SFcompare (canon false a k) (canon false b k) = Some (Zpos a ?= Zpos b).
Proof.
  intros A B.
  pose proof (digits_le_53 a A) as Da. pose proof (digits_le_53 b B) as Db.
  pose proof (digits_bounds a) as Ba. pose proof (digits_bounds b) as Bb.
  unfold canon. cbn [SFcompare]. f_equal.
  set (da := Zpos (digits2_pos a)) in *. set (db := Zpos (digits2_pos b)) in *.
  destruct (Z.compare_spec (da - 53 - Z.of_nat k) (db - 53 - Z.of_nat k)) as [E|E|E].
  - assert (E' : da = db) by lia. rewrite E'.
    change (Pos.compare_cont Eq ?x ?y) with (Pos.compare x y).
    rewrite Pos2Z.inj_compare, !shl_Z.
    set (p := 2 ^ _).
    assert (P : 0 < p) by (apply Z.pow_pos_nonneg; lia).
    destruct (Z.compare_spec (Zpos a) (Zpos b)) as [C|C|C].
    + apply Z.compare_eq_iff. now rewrite C.
    + apply Z.compare_lt_iff. nia.
    + apply Z.compare_gt_iff. nia.
  - symmetry. apply Z.compare_lt_iff.
    assert (2 ^ da <= 2 ^ (db - 1)) by (apply Z.pow_le_mono_r; lia). lia.
  - symmetry. apply Z.compare_gt_iff.
    assert (2 ^ db <= 2 ^ (da - 1)) by (apply Z.pow_le_mono_r; lia). lia.
Qed.

Lemma fge_exact (a b : Z) (k : nat) :
  0 <= a < 2 ^ 53 -> 0 <= b < 2 ^ 53 -> (k <= 1022)%nat ->
  fge (dyadic a k) (dyadic b k) = (b <=? a).
Proof.
  intros A B Kb. unfold fge, SFleb.
  destruct a as [|a|a], b as [|b|b]; try lia.
  - reflexivity.
  - rewrite (dyadic_pos b) by lia. reflexivity.
  - rewrite (dyadic_pos a) by lia. reflexivity.
  - rewrite (dyadic_pos a), (dyadic_pos b), canon_compare by lia.
    unfold Z.leb. destruct (Zpos b ?= Zpos a); reflexivity.
Qed.

Lemma float_value_exact (n : Z) (k : nat) :
  0 <= n < 2 ^ 53 -> (k <= 1022)%nat ->
  exists q, float_value (dyadic n k) = Some q
            /\ (q * inject_Z (2 ^ Z.of_nat k) == inject_Z n)%Q.
Proof.
  intros H Kb. destruct n as [|n|n]; try lia.
  - exists 0%Q. split; reflexivity.
  - rewrite (dyadic_pos n) by lia. unfold canon.
    pose proof (digits_le_53 n ltac:(lia)) as D.
    set (d := Zpos (digits2_pos n)) in *.
    cbn [float_value]. eexists. split; [reflexivity|].
    assert (P : 0 < 2 ^ Z.of_nat k) by (apply Z.pow_pos_nonneg; lia).
    destruct (d - 53 - Z.of_nat k) as [|q|q] eqn:E; try lia.
    + replace (Z.to_nat (53 - d)) with 0%nat by lia.
      replace k with 0%nat by lia. unfold Qeq. cbn. lia.
    + unfold Qeq, Qmult, inject_Z. cbn [Qnum Qden].
      rewrite Pos.mul_1_r, shl_Z, Pos2Z.inj_pow.
      replace (Zpos q) with (Z.of_nat (Z.to_nat (53 - d)) + Z.of_nat k) by lia.
      rewrite Z.pow_add_r by lia. lia.
Qed.

(** ** Equations of the methods *)

Ltac run :=
  cbv [_get _get_token _refresh_token search_tracks bind ret raise lift
       get_self get_world set_access_token set_expires_at time_time
       requests_get requests_post request].

Lemma refresh_static (w : World) (s : Sys) :
  is_static (self s) ->
  _refresh_token w s
  = (Ok tt, store_expiry infinity (store_token (of_opt (_token_override (self s))) s)).
Proof.
  unfold is_static; intros H. run. now rewrite H.
Qed.

Lemma refresh_dynamic (w : World) (s : Sys) :
  not_static (self s) ->
  _refresh_token w s
  = let c := token_call w (self s) in
    let o := net w (length (trace s)) c in
    match o with
    | Fails e => (Raise (RequestException e), logged c o s)
    | Responds r => absorb_token_response w r (logged c o s)
    end.
Proof.
  unfold not_static; intros H. run. rewrite H.
  fold (token_call w (self s)).
  destruct (net w (length (trace s)) (token_call w (self s))) as [e|r]; cbn; [reflexivity|].
  unfold absorb_token_response.
  destruct (raise_for_status r); [|reflexivity].
  destruct (resp_json r) as [payload|]; [|reflexivity].
  destruct (py_getitem payload "access_token") as [tok|]; [|reflexivity].
  cbn.
  destruct (py_get payload "expires_in" (JInt 3600)) as [l|]; [|reflexivity].
  cbn. destruct (py_int w l) as [n|]; [|reflexivity].
  cbn [rbind]. unfold stored_expiry.
  destruct (float_add_int _ n); reflexivity.
Qed.

Lemma get_token_static (w : World) (s : Sys) :
  is_static (self s) ->
  _get_token w s = (Ok (of_opt (_token_override (self s))), s).
Proof.
  unfold is_static; intros H. run. now rewrite H.
Qed.

Lemma get_token_dynamic (w : World) (s : Sys) :
  not_static (self s) ->
  _get_token w s
  = if negb (truthy (_access_token (self s))) then
      match _refresh_token w s with
      | (Ok _, s') => checked_token s'
      | (Raise e, s') => (Raise e, s')
      end
    else if expired (clock w (reads s)) (_expires_at (self s)) then
      match _refresh_token w (tick s) with
      | (Ok _, s') => checked_token s'
      | (Raise e, s') => (Raise e, s')
      end
    else checked_token (tick s).
Proof.
  unfold not_static; intros H.
  cbv [_get_token bind ret raise lift get_self time_time]. rewrite H.
  destruct (negb (truthy (_access_token (self s)))).
  - destruct (_refresh_token w s) as [[[]|e] s']; [|reflexivity].
    unfold checked_token. destruct (_access_token (self s')); reflexivity.
  - destruct (expired (clock w (reads s)) (_expires_at (self s))).
    + destruct (_refresh_token w (tick s)) as [[[]|e] s']; [|reflexivity].
      unfold checked_token. destruct (_access_token (self s')); reflexivity.
    + unfold checked_token. cbn. destruct (_access_token (self s)); reflexivity.
Qed.

Lemma get_unfold (url : string) (params : option (dict json)) (w : World) (s : Sys) :
  _get url params w s
  = match _get_token w s with
    | (Raise e, s1) => (Raise e, s1)
    | (Ok tok, s1) =>
        match request (resource_call w tok url params) w s1 with
        | (Raise e, s2) => (Raise e, s2)
        | (Ok resp, s2) =>
            if auth_failure resp && negb (truthy_opt (_token_override (self s2)))
            then
              match reauthenticate w url params s2 with
              | (Raise e, s3) => (Raise e, s3)
              | (Ok resp', s3) => deliver w resp' s3
              end
            else deliver w resp s2
        end
    end.
Proof.
  cbv [_get bind ret raise lift get_self get_world requests_get].
  destruct (_get_token w s) as [[tok|e] s1]; [|reflexivity].
  fold (resource_call w tok url params).
  destruct (request (resource_call w tok url params) w s1) as [[resp|e] s2];
    [|reflexivity].
  destruct (auth_failure resp && negb (truthy_opt (_token_override (self s2)))).
  - unfold reauthenticate.
    destruct (_refresh_token w s2) as [[[]|e] s3]; [|reflexivity].
    destruct (_get_token w s3) as [[tok'|e] s4]; [|reflexivity].
    change (dict_set "Authorization" ("Bearer " ++ py_str w tok')
              [("Authorization", "Bearer " ++ py_str w tok);
               ("Accept", "application/json")])
      with [("Authorization", "Bearer " ++ py_str w tok');
            ("Accept", "application/json")].
    fold (resource_call w tok' url params).
    destruct (request (resource_call w tok' url params) w s4) as [[resp'|e] s5];
      [|reflexivity].
    unfold deliver.
    destruct (raise_for_status resp') as [|[]]; reflexivity.
  - unfold deliver.
    destruct (raise_for_status resp) as [|[]]; reflexivity.
Qed.

(** ** Frame facts: what the methods leave alone, and how the log grows *)

Local Open Scope list_scope.

Lemma absorb_token_response_frame (w : World) (r : Response) (s : Sys) :
  let s' := snd (absorb_token_response w r s) in
  _token_override (self s') = _token_override (self s) /\ trace s' = trace s.
Proof.
  unfold absorb_token_response.
  destruct (raise_for_status r); [|now split].
  destruct (resp_json r) as [payload|]; [|now split].
  destruct (py_getitem payload "access_token"); [|now split].
  destruct (rbind _ _); now split.
Qed.

Lemma static_dec (me : SpotifyClient) : {is_static me} + {not_static me}.
Proof.
  unfold is_static, not_static.
  destruct (truthy_opt (_token_override me)); [left|right]; reflexivity.
Qed.

Lemma refresh_frame (w : World) (s : Sys) :
  let s' := snd (_refresh_token w s) in
  _token_override (self s') = _token_override (self s)
  /\ exists new, trace s' = trace s ++ new /\ Forall (fun e => is_post e = true) new.
Proof.
  destruct (static_dec (self s)) as [H|H].
  - rewrite (refresh_static w s H). cbn. split; [reflexivity|].
    exists []. now rewrite app_nil_r.
  - rewrite (refresh_dynamic w s H). cbv zeta.
    set (c := token_call w (self s)).
    destruct (net w (length (trace s)) c) as [e|r] eqn:E.
    + cbn. split; [reflexivity|]. exists [(c, Fails e)]. split; [reflexivity|].
      repeat constructor.
    + destruct (absorb_token_response_frame w r (logged c (Responds r) s)) as [A B].
      split; [exact A|]. exists [(c, Responds r)]. split; [exact B|].
      repeat constructor.
Qed.

Lemma checked_token_state (s : Sys) : snd (checked_token s) = s.
Proof. unfold checked_token. now destruct (_access_token (self s)). Qed.

Lemma get_token_frame (w : World) (s : Sys) :
  let s' := snd (_get_token w s) in
  _token_override (self s') = _token_override (self s)
  /\ exists new, trace s' = trace s ++ new /\ Forall (fun e => is_post e = true) new.
Proof.
  destruct (static_dec (self s)) as [H|H].
  - rewrite (get_token_static w s H). cbn. split; [reflexivity|].
    exists []. now rewrite app_nil_r.
  - rewrite (get_token_dynamic w s H).
    assert (K : forall s0, self s0 = self s -> trace s0 = trace s ->
                let s' := snd (match _refresh_token w s0 with
                               | (Ok _, s1) => checked_token s1
                               | (Raise e, s1) => (Raise e, s1)
                               end) in
                _token_override (self s') = _token_override (self s)
                /\ exists new, trace s' = trace s ++ new
                               /\ Forall (fun e => is_post e = true) new).
    { intros s0 Hs Ht. pose proof (refresh_frame w s0) as F. cbv zeta in F.
      rewrite Hs, Ht in F.
      destruct (_refresh_token w s0) as [[[]|e] s1]; cbn in F |- *.
      - now rewrite checked_token_state.
      - exact F. }
    destruct (negb (truthy (_access_token (self s)))).
    + now apply K.
    + destruct (expired (clock w (reads s)) (_expires_at (self s))).
      * now apply K.
      * rewrite checked_token_state. cbn. split; [reflexivity|].
        exists []. now rewrite app_nil_r.
Qed.

Lemma deliver_state (w : World) (r : Response) (s : Sys) : snd (deliver w r s) = s.
Proof. unfold deliver. destruct (raise_for_status r) as [|[]]; reflexivity. Qed.

Lemma request_state (c : call) (w : World) (s : Sys) :
  snd (request c w s) = logged c (net w (length (trace s)) c) s.
Proof. unfold request. now destruct (net w (length (trace s)) c). Qed.

Lemma posts_made_by_get (w : World) (url : string) (params : option (dict json))
  (l : list event) :
  Forall (fun e => is_post e = true) l -> Forall (made_by_get w url params) l.
Proof. apply Forall_impl. intros e H. now left. Qed.

Lemma reauthenticate_frame (w : World) (url : string) (params : option (dict json))
  (s : Sys) :
  let s' := snd (reauthenticate w url params s) in
  _token_override (self s') = _token_override (self s)
  /\ exists new, trace s' = trace s ++ new /\ Forall (made_by_get w url params) new.
Proof.
  unfold reauthenticate.
  pose proof (refresh_frame w s) as F. cbv zeta in F.
  destruct (_refresh_token w s) as [[[]|e] s1]; cbn in F.
  2:{ destruct F as [A (new & B & C)]. split; [exact A|].
      exists new. split; [exact B|]. now apply posts_made_by_get. }
  destruct F as [A (n1 & B & C)].
  pose proof (get_token_frame w s1) as G. cbv zeta in G.
  destruct (_get_token w s1) as [[tok|e] s2]; cbn in G;
    destruct G as [A2 (n2 & B2 & C2)].
  2:{ cbn. split; [congruence|]. exists (n1 ++ n2).
      rewrite B2, B, app_assoc. split; [reflexivity|].
      apply posts_made_by_get, Forall_app. now split. }
  rewrite request_state. cbn. split; [congruence|].
  exists (n1 ++ n2 ++ [(resource_call w tok url params,
                         net w (length (trace s2)) (resource_call w tok url params))]).
  rewrite B2, B, !app_assoc. split; [reflexivity|].
  rewrite <- app_assoc.
  apply Forall_app. split; [now apply posts_made_by_get|].
  apply Forall_app. split; [now apply posts_made_by_get|].
  constructor; [|constructor]. right. now exists tok.
Qed.

Lemma get_frame (url : string) (params : option (dict json)) (w : World) (s : Sys) :
  let s' := snd (_get url params w s) in
  _token_override (self s') = _token_override (self s)
  /\ exists new, trace s' = trace s ++ new /\ Forall (made_by_get w url params) new.
Proof.
  rewrite get_unfold.
  pose proof (get_token_frame w s) as G. cbv zeta in G.
  destruct (_get_token w s) as [[tok|e] s1]; cbn in G;
    destruct G as [A1 (n1 & B1 & C1)].
  2:{ cbn. split; [exact A1|]. exists n1. split; [exact B1|].
      now apply posts_made_by_get. }
  set (c := resource_call w tok url params).
  pose proof (request_state c w s1) as R.
  assert (Hc : made_by_get w url params (c, net w (length (trace s1)) c))
    by (right; now exists tok).
  destruct (request c w s1) as [[resp|e] s2]; cbn in R; subst s2.
  2:{ cbn. split; [exact A1|].
      exists (n1 ++ [(c, net w (length (trace s1)) c)]).
      rewrite B1, app_assoc. split; [reflexivity|].
      apply Forall_app. split; [now apply posts_made_by_get|].
      constructor; [exact Hc|constructor]. }
  set (s2 := logged c (net w (length (trace s1)) c) s1).
  destruct (auth_failure resp && negb (truthy_opt (_token_override (self s2)))).
  - pose proof (reauthenticate_frame w url params s2) as F. cbv zeta in F.
    destruct (reauthenticate w url params s2) as [[resp'|e] s3]; cbn in F;
      destruct F as [A3 (n3 & B3 & C3)];
      [rewrite deliver_state|]; cbn;
      (split; [now rewrite A3|]);
      exists (n1 ++ (c, net w (length (trace s1)) c) :: n3);
      rewrite B3; subst s2; cbn; rewrite B1, <- !app_assoc;
      (split; [reflexivity|]);
      (apply Forall_app; split; [now apply posts_made_by_get|]);
      constructor; assumption.
  - rewrite deliver_state. cbn. split; [exact A1|].
    exists (n1 ++ [(c, net w (length (trace s1)) c)]).
    rewrite B1, app_assoc. split; [reflexivity|].
    apply Forall_app. split; [now apply posts_made_by_get|].
    constructor; [exact Hc|constructor].
Qed.

(** ** Construction *)

Lemma truthy_opt_provided (o : option string) :
  truthy_opt o = true <-> provided o.
Proof.
  unfold provided. destruct o as [s|]; cbn.
  - destruct (String.eqb_spec s EmptyString); cbn; split.
    + discriminate.
    + intros (s' & E & N). congruence.
    + intros _. now exists s.
    + reflexivity.
  - split; [discriminate|]. intros (s & E & _). discriminate.
Qed.

Lemma truthy_opt_not_provided (o : option string) :
  truthy_opt o = false <-> ~ provided o.
Proof.
  rewrite <- truthy_opt_provided. destruct (truthy_opt o); split; congruence.
Qed.

(** C2. Construction fails with the configuration error when no static token
    is provided and one of client id and client secret is missing, be it
    unset or, as the test with [not] has it, set to the empty string; in
    particular when the token is unset and the id or the secret is unset.
    It succeeds, with no token cached yet, when a static token or both id
    and secret are provided. *)
Theorem init_credentials (getenv : Environ) :
  let id := getenv "SPOTIFY_CLIENT_ID"%string in
  let secret := getenv "SPOTIFY_CLIENT_SECRET"%string in
  let tok := getenv "SPOTIFY_ACCESS_TOKEN"%string in
  (~ provided tok /\ (~ provided id \/ ~ provided secret) ->
   __init__ getenv = Raise missing_credentials)
  /\ (tok = None /\ (id = None \/ secret = None) ->
      __init__ getenv = Raise missing_credentials)
  /\ (provided tok \/ (provided id /\ provided secret) ->
      __init__ getenv
      = Ok (mkClient id secret (getenv "SPOTIFY_MARKET"%string) tok JNull (float_of_Z 0))).
Proof.
  cbv zeta. unfold __init__, missing_credentials.
  rewrite <- !truthy_opt_not_provided, <- !truthy_opt_provided.
  repeat split.
  - intros [-> [-> | ->]]; cbn; [reflexivity|].
    now rewrite orb_true_r.
  - intros [-> [-> | ->]]; cbn; [reflexivity|].
    now rewrite orb_true_r.
  - intros [-> | [-> ->]]; cbn; [reflexivity|now rewrite andb_false_r].
Qed.

Lemma init_credentials_witness :
  __init__ (env_of [("SPOTIFY_CLIENT_ID", "id")]%string) = Raise missing_credentials
  /\ __init__ (env_of [("SPOTIFY_CLIENT_ID", "id");
                       ("SPOTIFY_CLIENT_SECRET", "secret")]%string)
     = Ok (mkClient (Some "id") (Some "secret") None None JNull (float_of_Z 0))%string.
Proof.
  split.
  - apply (proj1 (proj2 (init_credentials (env_of [("SPOTIFY_CLIENT_ID", "id")]%string)))).
    split; [reflexivity|right; reflexivity].
  - apply (proj2 (proj2 (init_credentials
                           (env_of [("SPOTIFY_CLIENT_ID", "id");
                                    ("SPOTIFY_CLIENT_SECRET", "secret")]%string)))).
    right. split; [exists "id"%string | exists "secret"%string];
      (split; [reflexivity|discriminate]).
Defined.

(** ** A client with a static token *)

Lemma get_static (url : string) (params : option (dict json)) (w : World) (s : Sys) :
  is_static (self s) ->
  _get url params w s
  = let c := resource_call w (of_opt (_token_override (self s))) url params in
    let o := net w (length (trace s)) c in
    match o with
    | Fails e => (Raise (RequestException e), logged c o s)
    | Responds r => deliver w r (logged c o s)
    end.
Proof.
  intros H. rewrite get_unfold, (get_token_static w s H). cbv zeta.
  unfold request.
  destruct (net w (length (trace s)) _) as [e|r]; [reflexivity|].
  cbn [self logged]. unfold is_static in H. rewrite H.
  now rewrite andb_false_r.
Qed.

Lemma search_tracks_state (query : string) (limit : Z) (w : World) (s : Sys) :
  snd (search_tracks query limit w s)
  = snd (_get "https://api.spotify.com/v1/search"
              (Some (search_params (self s) query limit)) w s).
Proof.
  cbv [search_tracks bind get_self lift].
  now destruct (_get _ _ w s) as [[j|e] s'].
Qed.

Lemma run_op_override (o : op) (w : World) (s : Sys) :
  _token_override (self (run_op o w s)) = _token_override (self s).
Proof.
  destruct o as [| |url params|query limit]; cbn [run_op].
  - apply refresh_frame.
  - apply get_token_frame.
  - apply get_frame.
  - rewrite search_tracks_state. apply get_frame.
Qed.

Lemma run_op_static (o : op) (w : World) (s : Sys) :
  is_static (self s) ->
  is_static (self (run_op o w s))
  /\ exists new,
       trace (run_op o w s) = trace s ++ new
       /\ posts new = []
       /\ length new = (if is_resource_op o then 1 else 0)%nat.
Proof.
  intros H.
  assert (G : forall url params,
             is_static (self (snd (_get url params w s)))
             /\ exists new,
                  trace (snd (_get url params w s)) = trace s ++ new
                  /\ posts new = [] /\ length new = 1%nat).
  { intros url params. rewrite (get_static url params w s H). cbv zeta.
    set (c := resource_call w _ url params).
    assert (E : snd match net w (length (trace s)) c with
                    | Fails e =>
                        (Raise (RequestException e),
                         logged c (net w (length (trace s)) c) s)
                    | Responds r =>
                        deliver w r (logged c (net w (length (trace s)) c) s)
                    end = logged c (net w (length (trace s)) c) s).
    { destruct (net w (length (trace s)) c); [reflexivity|apply deliver_state]. }
    rewrite E. split; [exact H|].
    exists [(c, net w (length (trace s)) c)]. repeat split. }
  destruct o as [| |url params|query limit]; cbn [run_op is_resource_op].
  - rewrite (refresh_static w s H). split; [exact H|].
    exists []. cbn. now rewrite app_nil_r.
  - rewrite (get_token_static w s H). split; [exact H|].
    exists []. cbn. now rewrite app_nil_r.
  - apply G.
  - rewrite search_tracks_state. apply G.
Qed.

(** C3.  A client with a static token never calls the token endpoint.
    Whatever the world answers and whatever the clock shows, after any
    sequence of [_refresh_token], [_get_token], [_get] and [search_tracks]
    calls the log has grown by resource GETs only, one per [_get] (so the
    401/403 retry never ran), and [_get_token] still returns the static
    token and changes nothing. *)
Theorem static_token_never_fetched (w : World) (os : list op) (s : Sys) :
  is_static (self s) ->
  let s' := run_ops os w s in
  (exists new,
     trace s' = trace s ++ new
     /\ posts new = []
     /\ length new = length (filter is_resource_op os))
  /\ _get_token w s' = (Ok (of_opt (_token_override (self s))), s').
Proof.
  revert s. induction os as [|o os IH]; intros s H; cbn [run_ops].
  - split.
    + exists []. cbn. now rewrite app_nil_r.
    + now apply get_token_static.
  - destruct (run_op_static o w s H) as (H1 & n1 & T1 & P1 & L1).
    destruct (IH _ H1) as ((n2 & T2 & P2 & L2) & G).
    cbv zeta. split.
    + exists (n1 ++ n2). rewrite T2, T1, app_assoc. split; [reflexivity|].
      unfold posts in *. rewrite filter_app, P1, P2. split; [reflexivity|].
      rewrite length_app, L1, L2. cbn [filter].
      now destruct (is_resource_op o).
    + rewrite G. now rewrite run_op_override.
Qed.

Lemma static_token_never_fetched_witness :
  let w := scripted [Responds unauthorized; Fails Timeout] [] in
  let s' := run_ops [CallGet "https://api.spotify.com/v1/me" None;
                     CallGetToken;
                     CallSearchTracks "abba" 5;
                     CallRefreshToken]%string w (fresh static_client) in
  posts (trace s') = [] /\ length (trace s') = 2%nat.
Proof.
  cbv zeta.
  destruct (static_token_never_fetched
              (scripted [Responds unauthorized; Fails Timeout] [])
              [CallGet "https://api.spotify.com/v1/me" None;
               CallGetToken;
               CallSearchTracks "abba" 5;
               CallRefreshToken]%string
              (fresh static_client) eq_refl) as ((new & T & P & L) & _).
  rewrite T. cbn [fresh trace app]. split; [exact P|exact L].
Defined.

(** ** Error messages *)

Lemma extract_error_message_eq (w : World) (resp : Response) :
  _extract_error_message w resp
  = (if (status_code resp =? 403)%Z then
       "Spotify API returned 403 Forbidden: " ++ error_detail w resp ++ ". "
       ++ "For development apps, ensure the requested resource is available in your market "
       ++ "and consider using an Authorization Code token (set SPOTIFY_ACCESS_TOKEN)."
     else if (status_code resp =? 404)%Z then
       "Spotify API returned 404 Not Found: " ++ error_detail w resp ++ ". "
       ++ "This usually means one of the supplied IDs is invalid or unavailable in the current market."
     else
       "Spotify API error " ++ str_of_int (status_code resp) ++ ": "
       ++ error_detail w resp)%string.
Proof.
  unfold _extract_error_message, error_detail, resp_json.
  set (found := match json_body resp with
                | Some (JObj d) => _
                | _ => JNull
                end).
  set (found' := match match json_body resp with
                       | Some j => Ok j
                       | None => Raise JSONDecodeError
                       end with
                 | Ok j => j
                 | Raise _ => JObj []
                 end).
  assert (E : match found' with
              | JObj d =>
                  match lookup "error"%string d with
                  | Some (JObj e) =>
                      match lookup "message"%string e with
                      | Some m => m
                      | None => JNull
                      end
                  | Some (JStr s) => JStr s
                  | _ => JNull
                  end
              | _ => JNull
              end = found).
  { subst found found'. destruct (json_body resp) as [[]|]; reflexivity. }
  rewrite E.
  assert (F : py_str w (if negb (truthy found)
                        then match strip (text resp) with
                             | EmptyString => JStr "Unknown Spotify API error"
                             | String a s => JStr (String a s)
                             end
                        else found)
              = if truthy found then py_str w found
                else match strip (text resp) with
                     | EmptyString => "Unknown Spotify API error"%string
                     | String a s => String a s
                     end).
  { destruct (truthy found); cbn; [reflexivity|].
    now destruct (strip (text resp)). }
  rewrite F. reflexivity.
Qed.

(** C7.  For a 404 response whose body is the JSON object
    [{"error": {"message": "invalid id"}}], the extracted message is the
    "404 Not Found" sentence around [invalid id], followed by the guidance
    about supplied IDs; it contains both. *)
Theorem not_found_message (w : World) (resp : Response) :
  status_code resp = 404 ->
  json_body resp
  = Some (JObj [("error", JObj [("message", JStr "invalid id")])])%string ->
  let msg := _extract_error_message w resp in
  msg = ("Spotify API returned 404 Not Found: invalid id. "
         ++ "This usually means one of the supplied IDs is invalid or unavailable in the current market.")%string
  /\ contains "invalid id" msg = true
  /\ contains "one of the supplied IDs is invalid or unavailable in the current market"
              msg = true
  /\ prefix "Spotify API returned 404 Not Found: " msg = true.
Proof.
  intros Hs Hb. cbv zeta.
  assert (E : _extract_error_message w resp
              = ("Spotify API returned 404 Not Found: invalid id. "
                 ++ "This usually means one of the supplied IDs is invalid or unavailable in the current market.")%string).
  { rewrite extract_error_message_eq. unfold error_detail. rewrite Hs, Hb.
    reflexivity. }
  rewrite E. repeat split; vm_compute; reflexivity.
Qed.

Lemma not_found_message_witness :
  contains "invalid id"
           (_extract_error_message (scripted [] []) invalid_id_response) = true
  /\ contains "one of the supplied IDs is invalid or unavailable in the current market"
              (_extract_error_message (scripted [] []) invalid_id_response) = true.
Proof.
  destruct (not_found_message (scripted [] []) invalid_id_response
                              eq_refl eq_refl) as (_ & A & B & _).
  split; [exact A|exact B].
Defined.

(** C6.  A static-token client whose resource GET is answered with 401 does
    not retry and does not refresh: [_get] raises [SpotifyAPIError] at once,
    the log has grown by that single GET, the client object is untouched, and
    the message is the generic "Spotify API error 401: ..." form, which is
    the form of every status other than 403 and 404. *)
Theorem static_401_not_retried (w : World) (s : Sys) (url : string)
  (params : option (dict json)) (r : Response) :
  is_static (self s) ->
  let c := resource_call w (of_opt (_token_override (self s))) url params in
  net w (length (trace s)) c = Responds r ->
  status_code r = 401 ->
  exists s',
    _get url params w s
    = (Raise (SpotifyAPIError ("Spotify API error 401: " ++ error_detail w r)%string
                              (Some (HTTPError r))), s')
    /\ self s' = self s
    /\ reads s' = reads s
    /\ trace s' = trace s ++ [(c, Responds r)]
    /\ (forall r' : Response,
           status_code r' <> 403 -> status_code r' <> 404 ->
           _extract_error_message w r'
           = ("Spotify API error " ++ str_of_int (status_code r') ++ ": "
              ++ error_detail w r')%string).
Proof.
  intros H c N S401.
  exists (logged c (Responds r) s).
  rewrite (get_static url params w s H). cbv zeta. fold c. rewrite N.
  unfold deliver, raise_for_status. rewrite S401. cbn [Z.leb Z.ltb Z.compare
    Pos.compare Pos.compare_cont andb].
  rewrite extract_error_message_eq, S401. cbn [Z.eqb Pos.eqb].
  repeat split.
  intros r' N3 N4. rewrite extract_error_message_eq.
  apply Z.eqb_neq in N3, N4. now rewrite N3, N4.
Qed.

Lemma static_401_not_retried_witness :
  exists s',
    _get "https://api.spotify.com/v1/me" None
         (scripted [Responds unauthorized] []) (fresh static_client)
    = (Raise (SpotifyAPIError "Spotify API error 401: The access token expired"
                              (Some (HTTPError unauthorized))), s')
    /\ length (trace s') = 1%nat.
Proof.
  destruct (static_401_not_retried
              (scripted [Responds unauthorized] []) (fresh static_client)
              "https://api.spotify.com/v1/me" None unauthorized
              eq_refl eq_refl eq_refl) as (s' & E & _ & _ & T & _).
  exists s'. split; [exact E|]. rewrite T. reflexivity.
Defined.

(** [time.time() + int(...) - 60] fails only in the conversion of the
    lifetime, and otherwise is the rounded sum less the float 60. *)
Lemma float_of_int_cases (n : Z) :
  float_of_int n = Ok (float_of_Z n) \/ float_of_int n = Raise OverflowError.
Proof.
  unfold float_of_int. destruct (float_of_Z n); auto.
Qed.

Lemma float_of_int_exact (n : Z) :
  0 <= n < 2 ^ 53 -> float_of_int n = Ok (float_of_Z n).
Proof.
  intros H. unfold float_of_int.
  destruct n as [|n|n]; [reflexivity| |lia].
  rewrite float_of_pos by lia. reflexivity.
Qed.

Lemma stored_expiry_ok (now : float) (lifetime : Z) (f : float) :
  float_of_int lifetime = Ok f ->
  stored_expiry now lifetime = Ok (fsub (fadd now f) (float_of_Z 60)).
Proof.
  intros E. unfold stored_expiry, float_add_int. now rewrite E.
Qed.

Lemma stored_expiry_overflow (now : float) (lifetime : Z) :
  float_of_int lifetime = Raise OverflowError ->
  stored_expiry now lifetime = Raise OverflowError.
Proof.
  intros E. unfold stored_expiry, float_add_int. now rewrite E.
Qed.

Lemma stored_expiry_raises (now : float) (lifetime : Z) (e : exn) :
  stored_expiry now lifetime = Raise e ->
  e = OverflowError /\ float_of_int lifetime = Raise OverflowError.
Proof.
  destruct (float_of_int_cases lifetime) as [E|E].
  - rewrite (stored_expiry_ok now lifetime _ E). discriminate.
  - rewrite (stored_expiry_overflow now lifetime E). intros [= <-]. now split.
Qed.

Lemma stored_expiry_exact (m lifetime : Z) (k : nat) :
  (k <= 1022)%nat -> 0 <= m -> 0 <= lifetime ->
  60 * 2 ^ Z.of_nat k <= m + lifetime * 2 ^ Z.of_nat k < 2 ^ 53 ->
  stored_expiry (dyadic m k) lifetime
  = Ok (dyadic (m + (lifetime - 60) * 2 ^ Z.of_nat k) k).
Proof.
  intros K M L B.
  assert (P : 0 < 2 ^ Z.of_nat k) by (apply Z.pow_pos_nonneg; lia).
  rewrite (stored_expiry_ok _ _ (float_of_Z lifetime))
    by (apply float_of_int_exact; nia).
  rewrite <- (dyadic_scale lifetime k), <- (dyadic_scale 60 k) by lia.
  rewrite fadd_exact, fsub_exact by lia.
  f_equal. f_equal. lia.
Qed.

(** ** Token acquisition *)

Lemma refresh_parsed (w : World) (s : Sys) (r : Response) (d : dict json)
  (tok : json) :
  not_static (self s) ->
  net w (length (trace s)) (token_call w (self s)) = Responds r ->
  raise_for_status r = Ok tt ->
  json_body r = Some (JObj d) ->
  lookup "access_token"%string d = Some tok ->
  let s1 := tick (store_token tok (logged (token_call w (self s)) (Responds r) s)) in
  _refresh_token w s
  = match (lifetime <- announced_lifetime w d ;;
           stored_expiry (clock w (reads s)) lifetime)%result with
    | Ok expires_at => (Ok tt, store_expiry expires_at s1)
    | Raise e => (Raise e, s1)
    end.
Proof.
  intros H N S200 B T.
  rewrite (refresh_dynamic w s H). cbv zeta. rewrite N.
  unfold absorb_token_response, resp_json. rewrite S200, B.
  cbn [py_getitem]. rewrite T.
  unfold announced_lifetime. cbn [py_get rbind].
  now destruct (lookup "expires_in"%string d).
Qed.

Lemma refresh_answered (w : World) (s : Sys) (r : Response) (d : dict json)
  (tok : json) (lifetime : Z) :
  not_static (self s) ->
  net w (length (trace s)) (token_call w (self s)) = Responds r ->
  raise_for_status r = Ok tt ->
  json_body r = Some (JObj d) ->
  lookup "access_token"%string d = Some tok ->
  announced_lifetime w d = Ok lifetime ->
  let s1 := tick (store_token tok (logged (token_call w (self s)) (Responds r) s)) in
  _refresh_token w s
  = match stored_expiry (clock w (reads s)) lifetime with
    | Ok expires_at => (Ok tt, store_expiry expires_at s1)
    | Raise e => (Raise e, s1)
    end.
Proof.
  intros H N S200 B T L.
  rewrite (refresh_parsed w s r d tok H N S200 B T). cbv zeta. now rewrite L.
Qed.

Lemma refresh_succeeds (w : World) (s : Sys) (r : Response) (d : dict json)
  (tok : json) (lifetime : Z) (expires_at : float) :
  not_static (self s) ->
  net w (length (trace s)) (token_call w (self s)) = Responds r ->
  raise_for_status r = Ok tt ->
  json_body r = Some (JObj d) ->
  lookup "access_token"%string d = Some tok ->
  announced_lifetime w d = Ok lifetime ->
  stored_expiry (clock w (reads s)) lifetime = Ok expires_at ->
  _refresh_token w s
  = (Ok tt,
     store_expiry expires_at
       (tick (store_token tok (logged (token_call w (self s)) (Responds r) s)))).
Proof.
  intros H N S200 B T L X.
  rewrite (refresh_answered w s r d tok lifetime H N S200 B T L).
  cbv zeta. now rewrite X.
Qed.

Lemma refresh_overflows (w : World) (s : Sys) (r : Response) (d : dict json)
  (tok : json) (lifetime : Z) :
  not_static (self s) ->
  net w (length (trace s)) (token_call w (self s)) = Responds r ->
  raise_for_status r = Ok tt ->
  json_body r = Some (JObj d) ->
  lookup "access_token"%string d = Some tok ->
  announced_lifetime w d = Ok lifetime ->
  float_of_int lifetime = Raise OverflowError ->
  _refresh_token w s
  = (Raise OverflowError,
     tick (store_token tok (logged (token_call w (self s)) (Responds r) s))).
Proof.
  intros H N S200 B T L X.
  rewrite (refresh_answered w s r d tok lifetime H N S200 B T L).
  cbv zeta. now rewrite (stored_expiry_overflow _ _ X).
Qed.

(** C4, as stated, fails in two ways.  A successful exchange that announces
    a lifetime too large for a float ([10^400] seconds) makes
    [_refresh_token] raise [OverflowError] with the new token stored and the
    expiry still at its initial 0.  And with a clock at 1700000256 and a
    lifetime of [2^62 + 1023] seconds the sum is rounded up: the stored
    expiry is 513 seconds after the announced one, not 60 seconds before
    it. *)
Lemma refresh_expiry_overflows_or_rounds :
  (exists s',
      _refresh_token
        (scripted [Responds (token_response "BQC-1" (10 ^ 400))]
                  [float_of_Z 1700000256])
        (fresh dynamic_client) = (Raise OverflowError, s')
      /\ _access_token (self s') = JStr "BQC-1"
      /\ _expires_at (self s') = float_of_Z 0)
  /\ (let lifetime := 2 ^ 62 + 1023 in
      exists s',
        _refresh_token
          (scripted [Responds (token_response "BQC-1" lifetime)]
                    [float_of_Z 1700000256])
          (fresh dynamic_client) = (Ok tt, s')
        /\ float_is (float_of_Z 1700000256) (inject_Z 1700000256)
        /\ float_is (_expires_at (self s'))
                    (inject_Z (1700000256 + lifetime + 513))).
Proof.
  split.
  - eexists. split; [vm_compute; reflexivity|]. split; reflexivity.
  - cbv zeta. eexists. split; [vm_compute; reflexivity|].
    split; eexists; (split; [reflexivity|vm_compute; reflexivity]).
Qed.

(** C4, amended.  When the token endpoint answers a non-static client
    successfully, the lifetime is the announced [expires_in], or 3600 when
    that is absent.  If the lifetime converts to a float, [_refresh_token]
    caches the returned token and sets the expiry to the float sum of the
    time it reads while processing the answer and the lifetime, less the
    float 60; if it does not, [_refresh_token] raises [OverflowError] with
    the token cached and the expiry as it was.  Whenever the time read is a
    multiple [m / 2^k] of a binary fraction of a second, the lifetime is not
    negative, and the announced expiry [m / 2^k + lifetime] is at least 60
    and has at most 53 bits in that unit, no rounding occurs: the expiry is
    exactly the time read plus the lifetime minus 60 (plus 3540 when
    [expires_in] is 3600), and adding 60 to it gives the announced
    expiry. *)
Theorem refresh_sets_expiry (w : World) (s : Sys) (r : Response) (d : dict json)
  (tok : json) (lifetime : Z) :
  not_static (self s) ->
  net w (length (trace s)) (token_call w (self s)) = Responds r ->
  raise_for_status r = Ok tt ->
  json_body r = Some (JObj d) ->
  lookup "access_token"%string d = Some tok ->
  announced_lifetime w d = Ok lifetime ->
  let now := clock w (reads s) in
  (lookup "expires_in"%string d = None -> lifetime = 3600)
  /\ (forall n, lookup "expires_in"%string d = Some (JInt n) -> lifetime = n)
  /\ (forall f : float,
         float_of_int lifetime = Ok f ->
         exists s',
           _refresh_token w s = (Ok tt, s')
           /\ _access_token (self s') = tok
           /\ _expires_at (self s') = fsub (fadd now f) (float_of_Z 60))
  /\ (float_of_int lifetime = Raise OverflowError ->
      exists s',
        _refresh_token w s = (Raise OverflowError, s')
        /\ _access_token (self s') = tok
        /\ _expires_at (self s') = _expires_at (self s))
  /\ (forall (m : Z) (k : nat),
         now = dyadic m k ->
         (k <= 1022)%nat -> 0 <= m -> 0 <= lifetime ->
         60 * 2 ^ Z.of_nat k <= m + lifetime * 2 ^ Z.of_nat k < 2 ^ 53 ->
         exists s',
           _refresh_token w s = (Ok tt, s')
           /\ _access_token (self s') = tok
           /\ _expires_at (self s')
              = dyadic (m + (lifetime - 60) * 2 ^ Z.of_nat k) k
           /\ (lifetime = 3600 ->
               _expires_at (self s') = dyadic (m + 3540 * 2 ^ Z.of_nat k) k)
           /\ fadd (_expires_at (self s')) (float_of_Z 60)
              = fadd now (float_of_Z lifetime)).
Proof.
  intros H N S200 B T L now.
  split; [|split; [|split; [|split]]].
  - intros E. unfold announced_lifetime in L. rewrite E in L. congruence.
  - intros n E. unfold announced_lifetime in L. rewrite E in L. cbn in L. congruence.
  - intros f F. eexists.
    split; [apply (refresh_succeeds w s r d tok lifetime
                     (fsub (fadd now f) (float_of_Z 60)));
            try assumption; now apply stored_expiry_ok|].
    split; reflexivity.
  - intros F. eexists.
    split; [now apply (refresh_overflows w s r d tok lifetime)|].
    split; reflexivity.
  - intros m k E K M L0 Bd.
    assert (P : 0 < 2 ^ Z.of_nat k) by (apply Z.pow_pos_nonneg; lia).
    eexists.
    split; [apply (refresh_succeeds w s r d tok lifetime
                     (dyadic (m + (lifetime - 60) * 2 ^ Z.of_nat k) k));
            try assumption; fold now; rewrite E; now apply stored_expiry_exact|].
    cbn [store_expiry store_token tick logged self _access_token _expires_at].
    split; [reflexivity|]. split; [reflexivity|]. split.
    + intros ->. reflexivity.
    + rewrite E.
      rewrite <- (dyadic_scale lifetime k), <- (dyadic_scale 60 k) by lia.
      rewrite !fadd_exact by lia. f_equal. lia.
Qed.

Lemma refresh_sets_expiry_witness :
  exists s',
    _refresh_token
      (scripted [Responds (token_response "BQC-1" 3600)] [dyadic 6800000001 2])
      (fresh dynamic_client) = (Ok tt, s')
    /\ _access_token (self s') = JStr "BQC-1"
    /\ _expires_at (self s') = dyadic 6800014161 2.
Proof.
  destruct (refresh_sets_expiry
              (scripted [Responds (token_response "BQC-1" 3600)]
                        [dyadic 6800000001 2])
              (fresh dynamic_client) (token_response "BQC-1" 3600)
              [("access_token", JStr "BQC-1"); ("token_type", JStr "Bearer");
               ("expires_in", JInt 3600)]%string (JStr "BQC-1") 3600
              eq_refl eq_refl eq_refl eq_refl eq_refl eq_refl)
    as (_ & _ & _ & _ & X).
  destruct (X 6800000001 2%nat eq_refl) as (s' & E & A & _ & Y & _);
    [lia|lia|lia|split; [vm_compute; discriminate|vm_compute; reflexivity]|].
  exists s'. split; [exact E|]. split; [exact A|]. exact (Y eq_refl).
Defined.

(** ** The authenticated GET *)

Lemma get_fetch (url : string) (params : option (dict json)) (w : World) (s : Sys) :
  _get url params w s
  = match _get_token w s with
    | (Raise e, s1) => (Raise e, s1)
    | (Ok tok, s1) => fetch w url params tok s1
    end.
Proof. apply get_unfold. Qed.

Lemma fetch_trace (w : World) (url : string) (params : option (dict json))
  (tok : json) (s : Sys) :
  let c := resource_call w tok url params in
  exists rest,
    trace (snd (fetch w url params tok s))
    = trace s ++ (c, net w (length (trace s)) c) :: rest
    /\ Forall (made_by_get w url params) rest.
Proof.
  intros c. unfold fetch. fold c.
  pose proof (request_state c w s) as R.
  destruct (request c w s) as [[resp|e] s1]; cbn [snd] in R; subst s1.
  2:{ exists []. split; [reflexivity|constructor]. }
  set (s1 := logged c (net w (length (trace s)) c) s).
  destruct (auth_failure resp && negb (truthy_opt (_token_override (self s1)))).
  - destruct (reauthenticate_frame w url params s1) as (_ & new & T & F).
    exists new. split; [|exact F].
    destruct (reauthenticate w url params s1) as [[resp'|e] s2];
      [rewrite deliver_state|]; cbn [snd] in T |- *;
      rewrite T; subst s1; cbn [logged trace]; now rewrite <- app_assoc.
  - rewrite deliver_state. exists []. split; [reflexivity|constructor].
Qed.

Lemma refresh_dynamic_trace (w : World) (s : Sys) :
  not_static (self s) ->
  let c := token_call w (self s) in
  trace (snd (_refresh_token w s)) = trace s ++ [(c, net w (length (trace s)) c)].
Proof.
  intros H c. rewrite (refresh_dynamic w s H). cbv zeta. fold c.
  destruct (net w (length (trace s)) c) as [e|r] eqn:E; [reflexivity|].
  now destruct (absorb_token_response_frame w r (logged c (Responds r) s)) as [_ ->].
Qed.



(** ** The assertion of [_get_token] *)



Lemma checked_token_truthy (s : Sys) :
  truthy (_access_token (self s)) = true ->
  checked_token s = (Ok (_access_token (self s)), s).
Proof.
  unfold checked_token. now destruct (_access_token (self s)).
Qed.

Lemma checked_token_str (s : Sys) (str : string) :
  _access_token (self s) = JStr str ->
  checked_token s = (Ok (JStr str), s).
Proof. unfold checked_token. now intros ->. Qed.

Lemma expiry_raises (now : float) (n : Z) (s s' : Sys) (e : exn) :
  match stored_expiry now n with
  | Ok expires_at => (Ok tt, store_expiry expires_at s)
  | Raise e => (Raise e, s)
  end = (Raise e, s') ->
  acquisition_error e = true.
Proof.
  destruct (stored_expiry now n) eqn:X; [discriminate|].
  intros [= <- _]. now destruct (stored_expiry_raises _ _ _ X) as [-> _].
Qed.

Lemma absorb_token_response_raises (w : World) (r : Response) (s s' : Sys) (e : exn) :
  absorb_token_response w r s = (Raise e, s') -> acquisition_error e = true.
Proof.
  unfold absorb_token_response, resp_json, raise_for_status.
  destruct (_ && _); [now intros [= <- _]|].
  destruct (json_body r) as [payload|]; [|now intros [= <- _]].
  destruct payload as [| | | | | |d]; try now intros [= <- _].
  cbn [py_getitem].
  destruct (lookup "access_token"%string d); [|now intros [= <- _]].
  cbn [py_get rbind].
  destruct (lookup "expires_in"%string d) as [v|]; cbn [rbind];
    [|apply expiry_raises].
  unfold py_int.
  destruct v as [| | | |str| |]; cbn [rbind];
    try apply expiry_raises; try now intros [= <- _].
  destruct (int_of_str w str); cbn [rbind];
    [apply expiry_raises|now intros [= <- _]].
Qed.

Lemma refresh_raises (w : World) (s s' : Sys) (e : exn) :
  _refresh_token w s = (Raise e, s') -> acquisition_error e = true.
Proof.
  destruct (static_dec (self s)) as [H|H].
  - rewrite (refresh_static w s H). discriminate.
  - rewrite (refresh_dynamic w s H). cbv zeta.
    destruct (net w _ _) as [t|r]; [now intros [= <- _]|].
    apply absorb_token_response_raises.
Qed.




(** ** Propagation of errors *)

Lemma acquisition_error_not_domain (e : exn) (msg : string) (cause : option exn) :
  acquisition_error e = true -> e <> SpotifyAPIError msg cause.
Proof. intros H ->. discriminate H. Qed.

Lemma get_token_raises (w : World) (s s' : Sys) (e : exn) :
  _get_token w s = (Raise e, s') ->
  e = AssertionError
  \/ exists s0, self s0 = self s /\ trace s0 = trace s
                /\ _refresh_token w s0 = (Raise e, s').
Proof.
  destruct (static_dec (self s)) as [H|H].
  - rewrite (get_token_static w s H). discriminate.
  - rewrite (get_token_dynamic w s H).
    assert (K : forall s0, self s0 = self s -> trace s0 = trace s ->
                match _refresh_token w s0 with
                | (Ok _, s1) => checked_token s1
                | (Raise e0, s1) => (Raise e0, s1)
                end = (Raise e, s') ->
                e = AssertionError
                \/ exists s0, self s0 = self s /\ trace s0 = trace s
                              /\ _refresh_token w s0 = (Raise e, s')).
    { intros s0 Hs Ht.
      destruct (_refresh_token w s0) as [[[]|e0] s1] eqn:R.
      - unfold checked_token. destruct (_access_token (self s1));
          try discriminate. intros [= <- _]. now left.
      - intros [= <- <-]. right. now exists s0. }
    assert (C : forall s0, checked_token s0 = (Raise e, s') -> e = AssertionError).
    { intros s0. unfold checked_token. destruct (_access_token (self s0));
        try discriminate. now intros [= <- _]. }
    destruct (negb (truthy (_access_token (self s)))); [now apply K|].
    destruct (expired _ _); [now apply K|].
    intros E. left. now apply (C (tick s)).
Qed.

Lemma request_ok (c : call) (w : World) (s s' : Sys) (r : Response) :
  request c w s = (Ok r, s') ->
  net w (length (trace s)) c = Responds r /\ s' = logged c (Responds r) s.
Proof.
  unfold request. destruct (net w (length (trace s)) c); [discriminate|].
  now intros [= <- <-].
Qed.

Lemma request_raises (c : call) (w : World) (s s' : Sys) (e : exn) :
  request c w s = (Raise e, s') -> acquisition_error e = true.
Proof.
  unfold request. destruct (net w (length (trace s)) c); [|discriminate].
  now intros [= <- _].
Qed.

Lemma raise_for_status_error (r : Response) :
  error_status r -> raise_for_status r = Raise (HTTPError r).
Proof.
  unfold error_status, raise_for_status. intros [A B].
  apply Z.leb_le in A. apply Z.ltb_lt in B. now rewrite A, B.
Qed.

Lemma raise_for_status_raises (r : Response) (e : exn) :
  raise_for_status r = Raise e -> error_status r /\ e = HTTPError r.
Proof.
  unfold error_status, raise_for_status.
  destruct (400 <=? status_code r) eqn:A; [|discriminate].
  destruct (status_code r <? 600) eqn:B; [|discriminate].
  cbn. intros [= <-]. apply Z.leb_le in A. apply Z.ltb_lt in B. now split.
Qed.

Lemma deliver_domain_error (w : World) (r : Response) (s s' : Sys) (msg : string)
  (cause : option exn) :
  deliver w r s = (Raise (SpotifyAPIError msg cause), s') ->
  error_status r /\ msg = _extract_error_message w r /\ cause = Some (HTTPError r).
Proof.
  unfold deliver.
  destruct (raise_for_status r) as [[]|e] eqn:S.
  - unfold resp_json. destruct (json_body r); discriminate.
  - destruct (raise_for_status_raises r e S) as [R ->].
    intros [= -> -> _]. now split.
Qed.

Lemma deliver_error_status (w : World) (r : Response) (s : Sys) :
  error_status r ->
  deliver w r s
  = (Raise (SpotifyAPIError (_extract_error_message w r) (Some (HTTPError r))), s).
Proof. intros H. unfold deliver. now rewrite (raise_for_status_error r H). Qed.

Lemma reauthenticate_ok (w : World) (url : string) (params : option (dict json))
  (s s' : Sys) (r : Response) :
  reauthenticate w url params s = (Ok r, s') ->
  exists tok s0, s' = logged (resource_call w tok url params) (Responds r) s0.
Proof.
  unfold reauthenticate.
  destruct (_refresh_token w s) as [[[]|e] s1]; [|discriminate].
  destruct (_get_token w s1) as [[tok|e] s2]; [|discriminate].
  intros E. apply request_ok in E as [_ ->]. now exists tok, s2.
Qed.

Lemma get_token_never_domain (w : World) (s s' : Sys) (e : exn) (msg : string)
  (cause : option exn) :
  _get_token w s = (Raise e, s') -> e <> SpotifyAPIError msg cause.
Proof.
  intros E. destruct (get_token_raises w s s' e E) as [->|(s0 & _ & _ & R)].
  - discriminate.
  - apply acquisition_error_not_domain. now apply (refresh_raises w s0 s').
Qed.

Lemma reauthenticate_never_domain (w : World) (url : string)
  (params : option (dict json)) (s s' : Sys) (e : exn) (msg : string)
  (cause : option exn) :
  reauthenticate w url params s = (Raise e, s') -> e <> SpotifyAPIError msg cause.
Proof.
  unfold reauthenticate.
  destruct (_refresh_token w s) as [[[]|e0] s1] eqn:R.
  2:{ intros [= <- _]. apply acquisition_error_not_domain.
      now apply (refresh_raises w s s1). }
  destruct (_get_token w s1) as [[tok|e1] s2] eqn:G.
  2:{ intros [= <- _]. now apply (get_token_never_domain w s1 s2). }
  intros E. apply acquisition_error_not_domain.
  exact (request_raises _ w s2 s' e E).
Qed.

Lemma get_domain_error (url : string) (params : option (dict json)) (w : World)
  (s s' : Sys) (msg : string) (cause : option exn) :
  _get url params w s = (Raise (SpotifyAPIError msg cause), s') ->
  exists tok s0 r,
    s' = logged (resource_call w tok url params) (Responds r) s0
    /\ error_status r
    /\ msg = _extract_error_message w r
    /\ cause = Some (HTTPError r).
Proof.
  rewrite get_fetch.
  destruct (_get_token w s) as [[tok|e] s1] eqn:G.
  2:{ intros [= -> _]. now destruct (get_token_never_domain w s s1 _ msg cause G). }
  unfold fetch.
  destruct (request (resource_call w tok url params) w s1) as [[r|e] s2] eqn:Q.
  2:{ intros [= -> _]. now apply request_raises in Q. }
  apply request_ok in Q as [_ ->].
  destruct (auth_failure r && _).
  - destruct (reauthenticate w url params _) as [[r'|e] s3] eqn:A.
    + destruct (reauthenticate_ok _ _ _ _ _ _ A) as (tok' & s0 & ->).
      intros D. pose proof (f_equal snd D) as X. rewrite deliver_state in X.
      cbn in X. apply deliver_domain_error in D as (D1 & D2 & D3).
      exists tok', s0, r'. now rewrite <- X.
    + intros [= -> _].
      now destruct (reauthenticate_never_domain _ _ _ _ _ _ msg cause A).
  - intros D. pose proof (f_equal snd D) as X. rewrite deliver_state in X.
    cbn in X. apply deliver_domain_error in D as (D1 & D2 & D3).
    exists tok, s1, r. now rewrite <- X.
Qed.



(** ** Re-authentication after 403 *)

(** C1, as stated, fails: with a valid cached token, a first GET answered
    403 and a retried GET answered 200, [_get] returns the payload of the
    second answer after three calls, not two. *)
Lemma get_403_then_200_makes_three_calls :
  let w := scripted [Responds forbidden; Responds (token_response "BQC-1" 3600);
                     Responds ok_response] [float_of_Z 10; float_of_Z 11; float_of_Z 12] in
  let out := _get "https://api.spotify.com/v1/search" None w (fresh cached_client) in
  not_static cached_client
  /\ map snd (gets (trace (snd out))) = [Responds forbidden; Responds ok_response]
  /\ map snd (posts (trace (snd out))) = [Responds (token_response "BQC-1" 3600)]
  /\ fst out = Ok (JObj [("tracks", JObj [("items", JList [])])])%string
  /\ length (trace (snd out)) = 3%nat
  /\ length (trace (snd out)) <> 2%nat.
Proof.
  cbv zeta. repeat split. discriminate.
Qed.

(** Without a cached token the same exchange takes four calls: the first
    acquisition, the failed GET, the refresh and the retried GET. *)
Lemma get_403_then_200_uncached_makes_four_calls :
  let w := scripted [Responds (token_response "BQC-1" 3600); Responds forbidden;
                     Responds (token_response "BQC-2" 3600); Responds ok_response]
                    [float_of_Z 10; float_of_Z 11; float_of_Z 12] in
  let out := _get "https://api.spotify.com/v1/search" None w (fresh dynamic_client) in
  map snd (gets (trace (snd out))) = [Responds forbidden; Responds ok_response]
  /\ fst out = Ok (JObj [("tracks", JObj [("items", JList [])])])%string
  /\ length (trace (snd out)) = 4%nat.
Proof.
  cbv zeta. repeat split.
Qed.

(** With a refreshed token that is already expired when it is read again
    ([expires_in] of 30 seconds), the token endpoint is called twice between
    the two GETs. *)
Lemma get_403_then_200_short_lived_refreshes_twice :
  let w := scripted [Responds forbidden; Responds (token_response "BQC-1" 30);
                     Responds (token_response "BQC-2" 3600); Responds ok_response]
                    [float_of_Z 10; float_of_Z 11; float_of_Z 12; float_of_Z 13] in
  let out := _get "https://api.spotify.com/v1/search" None w (fresh cached_client) in
  map snd (gets (trace (snd out))) = [Responds forbidden; Responds ok_response]
  /\ fst out = Ok (JObj [("tracks", JObj [("items", JList [])])])%string
  /\ length (posts (trace (snd out))) = 2%nat.
Proof.
  cbv zeta. repeat split.
Qed.

Lemma length_logged (c : call) (o : outcome) (s : Sys) :
  length (trace (logged c o s)) = S (length (trace s)).
Proof. cbn. rewrite length_app. cbn. lia. Qed.

(** C1, amended.  A non-static client holding an unexpired token: if the
    resource GET is answered 403, the token endpoint then answers
    successfully with a token that is non-empty, whose lifetime gives an
    expiry (it converts to a float) and which is not yet expired when it is
    read again, and the retried GET is answered 200 with a JSON body, then
    [_get] makes exactly three calls (the failed GET, one token POST, the
    successful GET with the new token) and returns the parsed body of the 200
    answer. *)
Theorem get_403_then_200 (w : World) (s : Sys) (url : string)
  (params : option (dict json)) (r1 rt r2 : Response) (d : dict json)
  (tok' payload : json) (lifetime : Z) (expires_at : float) :
  not_static (self s) ->
  truthy (_access_token (self s)) = true ->
  expired (clock w (reads s)) (_expires_at (self s)) = false ->
  let n := length (trace s) in
  let get1 := resource_call w (_access_token (self s)) url params in
  let post := token_call w (self s) in
  let get2 := resource_call w tok' url params in
  net w n get1 = Responds r1 ->
  status_code r1 = 403 ->
  net w (S n) post = Responds rt ->
  raise_for_status rt = Ok tt ->
  json_body rt = Some (JObj d) ->
  lookup "access_token"%string d = Some tok' ->
  announced_lifetime w d = Ok lifetime ->
  truthy tok' = true ->
  stored_expiry (clock w (S (reads s))) lifetime = Ok expires_at ->
  expired (clock w (S (S (reads s)))) expires_at = false ->
  net w (S (S n)) get2 = Responds r2 ->
  status_code r2 = 200 ->
  json_body r2 = Some payload ->
  exists s',
    _get url params w s = (Ok payload, s')
    /\ trace s' = trace s ++ [(get1, Responds r1); (post, Responds rt);
                              (get2, Responds r2)]
    /\ length (trace s') = (length (trace s) + 3)%nat
    /\ _access_token (self s') = tok'.
Proof.
  intros H T X n get1 post get2 N1 S1 Nt St Bt Lt At Tt Et Xt N2 S2 B2.
  rewrite get_fetch, (get_token_dynamic w s H), T, X. cbn [negb].
  rewrite (checked_token_truthy (tick s) T). cbn [tick self].
  unfold fetch at 1. unfold request at 1. fold get1.
  change (length (trace (tick s))) with n. rewrite N1.
  set (s1 := logged get1 (Responds r1) (tick s)).
  assert (H1 : not_static (self s1)) by exact H.
  unfold auth_failure. rewrite S1. unfold not_static in H1. rewrite H1.
  cbn [Z.eqb Pos.eqb orb andb negb].
  unfold reauthenticate.
  assert (L1 : length (trace s1) = S n) by apply length_logged.
  rewrite (refresh_succeeds w s1 rt d tok' lifetime expires_at H1);
    [|rewrite L1; exact Nt|exact St|exact Bt|exact Lt|exact At|exact Et].
  set (s2 := store_expiry _ _).
  assert (H2 : not_static (self s2)) by exact H.
  rewrite (get_token_dynamic w s2 H2).
  change (_access_token (self s2)) with tok'. rewrite Tt. cbn [negb].
  change (reads s2) with (S (S (reads s))).
  change (_expires_at (self s2)) with expires_at.
  rewrite Xt.
  rewrite (checked_token_truthy (tick s2));
    [|change (_access_token (self (tick s2))) with tok'; exact Tt].
  change (_access_token (self (tick s2))) with tok'.
  unfold request. fold get2.
  assert (L2 : length (trace (tick s2)) = S (S n)).
  { change (trace (tick s2)) with (trace (logged post (Responds rt) s1)).
    now rewrite length_logged, L1. }
  rewrite L2, N2.
  unfold deliver, raise_for_status, resp_json. rewrite S2, B2.
  cbn [Z.leb Z.ltb Z.compare Pos.compare Pos.compare_cont andb].
  eexists. split; [reflexivity|].
  subst s2 s1.
  cbn [logged tick store_expiry store_token trace self _access_token].
  rewrite <- !app_assoc. cbn [app].
  repeat split.
  rewrite length_app. reflexivity.
Qed.

Lemma get_403_then_200_witness :
  exists s',
    _get "https://api.spotify.com/v1/search" None
         (scripted [Responds forbidden; Responds (token_response "BQC-1" 3600);
                    Responds ok_response] [float_of_Z 10; float_of_Z 11; float_of_Z 12])
         (fresh cached_client)
    = (Ok (JObj [("tracks", JObj [("items", JList [])])])%string, s')
    /\ length (trace s') = 3%nat.
Proof.
  destruct (get_403_then_200
              (scripted [Responds forbidden; Responds (token_response "BQC-1" 3600);
                         Responds ok_response] [float_of_Z 10; float_of_Z 11; float_of_Z 12])
              (fresh cached_client) "https://api.spotify.com/v1/search" None
              forbidden (token_response "BQC-1" 3600) ok_response
              [("access_token", JStr "BQC-1"); ("token_type", JStr "Bearer");
               ("expires_in", JInt 3600)]%string
              (JStr "BQC-1") (JObj [("tracks", JObj [("items", JList [])])])%string
              3600 (float_of_Z 3551)
              eq_refl eq_refl eq_refl eq_refl eq_refl eq_refl eq_refl eq_refl
              eq_refl eq_refl eq_refl eq_refl eq_refl eq_refl eq_refl eq_refl)
    as (s' & E & _ & L & _).
  exists s'. split; [exact E|exact L].
Defined.

(** ** Track search *)

Lemma search_params_nonempty (me : SpotifyClient) (query : string) (limit : Z) :
  params_or_empty (Some (search_params me query limit))
  = search_params me query limit.
Proof.
  unfold search_params. now destruct (truthy_opt (market me)).
Qed.

Lemma search_params_limit (me : SpotifyClient) (query : string) (limit : Z) :
  lookup "limit"%string (search_params me query limit)
  = Some (JInt (Z.max 1 (Z.min limit 20))).
Proof.
  unfold search_params. now destruct (truthy_opt (market me)).
Qed.

(** C9.  The [limit] parameter that [search_tracks] sends is
    [max(1, min(limit, 20))]: it lies between 1 and 20, is 1 for a limit of
    at most 0 and 20 for a limit above 20.  Every GET that [search_tracks]
    logs carries these parameters, and one is logged as soon as a token is
    at hand. *)
Theorem search_limit_clamped (w : World) (s : Sys) (query : string) (limit : Z) :
  let params := search_params (self s) query limit in
  let sent := Z.max 1 (Z.min limit 20) in
  lookup "limit"%string params = Some (JInt sent)
  /\ 1 <= sent <= 20
  /\ (limit <= 0 -> sent = 1)
  /\ (20 < limit -> sent = 20)
  /\ (1 <= limit <= 20 -> sent = limit)
  /\ exists new,
       trace (snd (search_tracks query limit w s)) = trace s ++ new
       /\ Forall (fun e => is_post e = true \/ search_request w params e) new
       /\ (forall tok s1, _get_token w s = (Ok tok, s1) ->
                          Exists (search_request w params) new).
Proof.
  intros params sent.
  split; [apply search_params_limit|].
  split; [subst sent; lia|].
  split; [subst sent; lia|].
  split; [subst sent; lia|].
  split; [subst sent; lia|].
  rewrite search_tracks_state. fold params. fold search_url.
  destruct (get_frame search_url (Some params) w s) as (_ & new & T & F).
  exists new. split; [exact T|]. split.
  - revert F. apply Forall_impl. intros e [P|(tok & E)]; [now left|right].
    exists tok. rewrite E. unfold resource_call.
    subst params. now rewrite search_params_nonempty.
  - intros tok s1 G. revert T. rewrite get_fetch, G.
    destruct (get_token_frame w s) as (_ & n1 & T1 & _). rewrite G in T1.
    cbn [snd] in T1.
    destruct (fetch_trace w search_url (Some params) tok s1) as (rest & T2 & _).
    rewrite T2, T1, <- app_assoc. intros T. apply app_inv_head in T. subst new.
    apply Exists_app. right. apply Exists_cons_hd.
    exists tok. unfold resource_call. cbn [fst].
    subst params. now rewrite search_params_nonempty.
Qed.

Lemma search_limit_clamped_witness :
  lookup "limit"%string (search_params static_client "abba" 50) = Some (JInt 20)
  /\ lookup "limit"%string (search_params static_client "abba" (-3)) = Some (JInt 1)
  /\ lookup "limit"%string (search_params static_client "abba" 7) = Some (JInt 7).
Proof.
  pose proof (search_limit_clamped (scripted [] []) (fresh static_client)
                                   "abba" 50) as (A & _ & _ & B & _).
  pose proof (search_limit_clamped (scripted [] []) (fresh static_client)
                                   "abba" (-3)) as (C & _ & D & _).
  pose proof (search_limit_clamped (scripted [] []) (fresh static_client)
                                   "abba" 7) as (E & _ & _ & _ & F & _).
  cbv zeta in *. cbn [fresh self] in *.
  rewrite (B eq_refl) in A. rewrite D in C; [|lia].
  rewrite F in E; [|lia].
  repeat split; assumption.
Defined.

(** * The rest of the module *)

(** ** Track ids *)

Lemma rev_onto_app (acc s t : string) :
  (rev_onto acc s ++ t)%string = rev_onto acc (s ++ t)%string.
Proof.
  revert s. induction acc as [|c acc IH]; intros s; cbn; [reflexivity|].
  now rewrite IH.
Qed.

Lemma has_char_rev_onto (c : ascii) (acc s : string) :
  has_char c (rev_onto acc s) = has_char c acc || has_char c s.
Proof.
  revert s. induction acc as [|a acc IH]; intros s; cbn; [reflexivity|].
  rewrite IH. cbn. now destruct (Ascii.eqb a c), (has_char c acc).
Qed.

Lemma all_chars_impl (p q : ascii -> bool) (s : string) :
  (forall c, p c = true -> q c = true) ->
  all_chars p s = true -> all_chars q s = true.
Proof.
  intros H. induction s as [|c s IH]; cbn; [reflexivity|].
  intros E. apply andb_true_iff in E as [A B].
  now rewrite (H c A), (IH B).
Qed.

Lemma all_chars_app (p : ascii -> bool) (s t : string) :
  all_chars p (s ++ t) = all_chars p s && all_chars p t.
Proof.
  induction s as [|c s IH]; cbn; [reflexivity|].
  now rewrite IH, andb_assoc.
Qed.

Lemma all_chars_no_char (p : ascii -> bool) (c : ascii) (s : string) :
  p c = false -> all_chars p s = true -> has_char c s = false.
Proof.
  intros H. induction s as [|a s IH]; cbn; [reflexivity|].
  intros E. apply andb_true_iff in E as [A B]. rewrite (IH B), orb_false_r.
  destruct (Ascii.eqb_spec a c); [congruence|reflexivity].
Qed.

Lemma lstrip_clean (s : string) :
  all_chars (fun c => negb (is_space c)) s = true -> lstrip s = s.
Proof.
  destruct s as [|c s]; cbn; [reflexivity|].
  intros E. apply andb_true_iff in E as [A _].
  apply negb_true_iff in A. now rewrite A.
Qed.

Lemma rstrip_clean (s : string) :
  all_chars (fun c => negb (is_space c)) s = true -> rstrip s = s.
Proof.
  induction s as [|c s IH]; cbn; [reflexivity|].
  intros E. apply andb_true_iff in E as [A B].
  apply negb_true_iff in A. rewrite (IH B), A. now destruct s.
Qed.

Lemma strip_clean (s : string) :
  all_chars (fun c => negb (is_space c)) s = true -> strip s = s.
Proof.
  intros H. unfold strip. now rewrite (lstrip_clean s H), (rstrip_clean s H).
Qed.

Lemma prefix_has_char (c : ascii) (p t : string) :
  prefix p t = true -> has_char c p = true -> has_char c t = true.
Proof.
  revert t. induction p as [|a p IH]; intros t; cbn;
    [intros _ H; discriminate H|].
  destruct t as [|b t]; cbn; [discriminate|].
  destruct (ascii_dec a b) as [<-|N]; cbn; [|discriminate].
  intros P H. cbn. destruct (Ascii.eqb a c); [reflexivity|].
  cbn in H |- *. now apply IH.
Qed.

Lemma contains_has_char (c : ascii) (p s : string) :
  has_char c p = true -> has_char c s = false -> contains p s = false.
Proof.
  intros Hp. induction s as [|a s IH]; cbn [contains has_char].
  - intros _. destruct p; [discriminate Hp|reflexivity].
  - intros H. apply orb_false_iff in H as [A B].
    rewrite (IH B), orb_false_r.
    destruct (prefix p (String a s)) eqn:P; [|reflexivity].
    pose proof (prefix_has_char c p _ P Hp) as X. cbn in X.
    rewrite A, B in X. discriminate.
Qed.

Lemma split_from_absent (sep cur s : string) :
  contains sep s = false ->
  split_from sep 0 cur s = [rev_onto cur s].
Proof.
  revert cur. induction s as [|c s IH]; intros cur; cbn [contains split_from].
  - intros _. reflexivity.
  - intros H. apply orb_false_iff in H as [A B].
    rewrite A. now rewrite (IH _ B).
Qed.

Lemma prefix_char (c a : ascii) (s : string) :
  prefix (String c EmptyString) (String a s)
  = if ascii_dec c a then true else false.
Proof. cbn. destruct (ascii_dec c a); [now destruct s|reflexivity]. Qed.

(** With a one-character separator, no segment contains the separator. *)
Lemma split_char_segments (c : ascii) (cur s : string) :
  has_char c cur = false ->
  Forall (fun seg => has_char c seg = false)
         (split_from (String c EmptyString) 0 cur s).
Proof.
  revert cur. induction s as [|a s IH]; intros cur H; cbn [split_from].
  - constructor; [|constructor]. now rewrite has_char_rev_onto, H.
  - rewrite prefix_char. destruct (ascii_dec c a) as [<-|N].
    + constructor; [now rewrite has_char_rev_onto, H|now apply IH].
    + apply IH. cbn. rewrite H, orb_false_r.
      destruct (Ascii.eqb_spec a c); [congruence|reflexivity].
Qed.

Lemma split_char_first (c : ascii) (cur s t : string) :
  has_char c s = false ->
  hd EmptyString (split_from (String c EmptyString) 0 cur (s ++ String c t))
  = rev_onto cur s.
Proof.
  revert cur. induction s as [|a s IH]; intros cur;
    cbn [append split_from has_char]; rewrite prefix_char.
  - intros _. destruct (ascii_dec c c) as [_|N]; [reflexivity|congruence].
  - intros H. apply orb_false_iff in H as [A B].
    destruct (ascii_dec c a) as [<-|N].
    + now rewrite Ascii.eqb_refl in A.
    + now rewrite (IH _ B).
Qed.

Lemma Forall_last {A : Type} (P : A -> Prop) (l : list A) (d : A) :
  P d -> Forall P l -> P (last l d).
Proof.
  intros Hd H. induction H as [|x l Hx Hl IH]; [exact Hd|].
  destruct l; [exact Hx|exact IH].
Qed.

Lemma Forall_hd {A : Type} (P : A -> Prop) (l : list A) (d : A) :
  P d -> Forall P l -> P (hd d l).
Proof. intros Hd H. now destruct H. Qed.

Lemma alnum_plain (c : ascii) :
  is_alnum c = true ->
  is_space c = false
  /\ Ascii.eqb c ":" = false /\ Ascii.eqb c "/" = false
  /\ Ascii.eqb c "?" = false /\ Ascii.eqb c "." = false.
Proof.
  destruct c as [[] [] [] [] [] [] [] []]; vm_compute; intros H;
    try discriminate H; repeat split.
Qed.

Lemma base62_no_char (c : ascii) (id : string) :
  is_alnum c = false -> base62 id -> has_char c id = false.
Proof. intros H B. exact (all_chars_no_char is_alnum c id H B). Qed.

Lemma base62_no_space (id : string) :
  base62 id -> all_chars (fun c => negb (is_space c)) id = true.
Proof.
  apply all_chars_impl. intros c H.
  destruct (alnum_plain c H) as (-> & _). reflexivity.
Qed.

Lemma prefix_nil (s : string) : prefix EmptyString s = true.
Proof. now destruct s. Qed.

Lemma prefix_app (p s : string) : prefix p (p ++ s) = true.
Proof.
  induction p as [|a p IH]; cbn; [now destruct s|].
  destruct (ascii_dec a a); [exact IH|congruence].
Qed.

Lemma query_no_space (q : string) :
  all_chars query_char q = true ->
  all_chars (fun c => negb (is_space c)) q = true.
Proof.
  apply all_chars_impl. intros c H. unfold query_char in H.
  now apply andb_true_iff in H as [-> _].
Qed.

Lemma query_no_slash (q : string) :
  all_chars query_char q = true -> has_char "/" q = false.
Proof.
  intros H. apply (all_chars_no_char query_char "/" q); [reflexivity|exact H].
Qed.

Lemma has_char_app (c : ascii) (s t : string) :
  has_char c (s ++ t) = has_char c s || has_char c t.
Proof.
  induction s as [|a s IH]; cbn; [reflexivity|]. now rewrite IH, orb_assoc.
Qed.

(** X1.  The forms in which a track is usually given all normalise to its
    id: for an id of digits and ASCII letters, the bare id, the
    [spotify:track:] URI, and the [open.spotify.com/track/] URL with or
    without a query string (free of slashes and white space) give the id. *)
Theorem normalize_track_forms (id : string) :
  base62 id ->
  _normalize_track_id id = id
  /\ _normalize_track_id (track_uri_prefix ++ id) = id
  /\ _normalize_track_id (track_url_prefix ++ id) = id
  /\ (forall q, all_chars query_char q = true ->
                _normalize_track_id (track_url_prefix ++ id ++ "?" ++ q) = id).
Proof.
  intros B.
  pose proof (base62_no_space id B) as NS.
  pose proof (base62_no_char ":" id eq_refl B) as NC.
  pose proof (base62_no_char "/" id eq_refl B) as NL.
  pose proof (base62_no_char "?" id eq_refl B) as NQ.
  pose proof (base62_no_char "." id eq_refl B) as ND.
  split; [|split; [|split]].
  - unfold _normalize_track_id. rewrite (strip_clean id NS).
    destruct (prefix "spotify:track:" id) eqn:P.
    { pose proof (prefix_has_char ":" _ _ P eq_refl). congruence. }
    now rewrite (contains_has_char "." "open.spotify.com/track" id eq_refl ND).
  - unfold _normalize_track_id.
    rewrite strip_clean by (rewrite all_chars_app, NS; reflexivity).
    unfold track_uri_prefix at 1. rewrite prefix_app.
    assert (E : py_split ":" (track_uri_prefix ++ id) = ["spotify"; "track"; id]%string).
    { unfold track_uri_prefix, py_split. cbn. rewrite prefix_nil.
      rewrite split_from_absent
        by (apply (contains_has_char ":"); [reflexivity|exact NC]).
      reflexivity. }
    now rewrite E.
  - unfold _normalize_track_id.
    rewrite strip_clean by (rewrite all_chars_app, NS; reflexivity).
    assert (P : prefix "spotify:track:" (track_url_prefix ++ id) = false)
      by reflexivity.
    assert (C : contains "open.spotify.com/track" (track_url_prefix ++ id) = true)
      by reflexivity.
    rewrite P, C.
    assert (E : py_split "track/" (track_url_prefix ++ id)
                = ["https://open.spotify.com/"; id]%string).
    { unfold track_url_prefix, py_split. cbn. rewrite prefix_nil.
      rewrite split_from_absent
        by (apply (contains_has_char "/"); [reflexivity|exact NL]).
      reflexivity. }
    rewrite E. cbn [last]. unfold py_split.
    rewrite split_from_absent
      by (apply (contains_has_char "?"); [reflexivity|exact NQ]).
    reflexivity.
  - intros q Q.
    pose proof (query_no_space q Q) as QS.
    pose proof (query_no_slash q Q) as QL.
    unfold _normalize_track_id.
    rewrite strip_clean
      by (rewrite !all_chars_app, NS, QS; reflexivity).
    assert (P : prefix "spotify:track:" (track_url_prefix ++ id ++ "?" ++ q) = false)
      by reflexivity.
    assert (C : contains "open.spotify.com/track"
                         (track_url_prefix ++ id ++ "?" ++ q) = true)
      by reflexivity.
    rewrite P, C.
    assert (E : py_split "track/" (track_url_prefix ++ id ++ "?" ++ q)
                = ["https://open.spotify.com/"; id ++ "?" ++ q]%string).
    { unfold track_url_prefix, py_split. cbn. rewrite prefix_nil.
      rewrite split_from_absent; [reflexivity|].
      apply (contains_has_char "/"); [reflexivity|].
      rewrite has_char_app, NL. cbn. exact QL. }
    rewrite E. cbn [last]. unfold py_split.
    change ("?" ++ q)%string with (String "?" q).
    now rewrite (split_char_first "?" EmptyString id q NQ).
Qed.

Lemma normalize_track_forms_witness :
  _normalize_track_id "6rqhFgbbKwnb9MLmUQDhG6" = "6rqhFgbbKwnb9MLmUQDhG6"%string
  /\ _normalize_track_id "spotify:track:6rqhFgbbKwnb9MLmUQDhG6"
     = "6rqhFgbbKwnb9MLmUQDhG6"%string
  /\ _normalize_track_id "https://open.spotify.com/track/6rqhFgbbKwnb9MLmUQDhG6?si=a1"
     = "6rqhFgbbKwnb9MLmUQDhG6"%string.
Proof.
  destruct (normalize_track_forms "6rqhFgbbKwnb9MLmUQDhG6" eq_refl)
    as (A & B & _ & C).
  split; [exact A|]. split; [exact B|]. exact (C "si=a1"%string eq_refl).
Defined.

Lemma lstrip_headed (s : string) : headed (lstrip s) = true.
Proof.
  induction s as [|c s IH]; cbn; [reflexivity|].
  destruct (is_space c) eqn:E; [exact IH|]. cbn. now rewrite E.
Qed.

Lemma headed_lstrip (s : string) : headed s = true -> lstrip s = s.
Proof.
  destruct s as [|c s]; cbn; [reflexivity|].
  intros H. apply negb_true_iff in H. now rewrite H.
Qed.

Lemma rstrip_headed (s : string) : headed s = true -> headed (rstrip s) = true.
Proof.
  destruct s as [|c s]; cbn; [reflexivity|].
  intros H. destruct (rstrip s); cbn; [|exact H].
  apply negb_true_iff in H. rewrite H. cbn. now rewrite H.
Qed.

Lemma rstrip_idempotent (s : string) : rstrip (rstrip s) = rstrip s.
Proof.
  induction s as [|c s IH]; cbn; [reflexivity|].
  destruct (rstrip s) as [|a r] eqn:E.
  - destruct (is_space c) eqn:S; cbn; [reflexivity|]. now rewrite S.
  - change (rstrip (String c (String a r)))
      with (match rstrip (String a r) with
            | EmptyString => if is_space c then EmptyString else String c EmptyString
            | String a' r' => String c (String a' r')
            end).
    now rewrite IH.
Qed.

Lemma strip_idempotent (s : string) : strip (strip s) = strip s.
Proof.
  unfold strip.
  rewrite (headed_lstrip (rstrip (lstrip s)))
    by apply rstrip_headed, lstrip_headed.
  apply rstrip_idempotent.
Qed.

(** X2.  What [_normalize_track_id] returns, for every input: in the URI
    branch a string without colon, in the URL branch a string without
    question mark, otherwise the stripped input; and white space around the
    input makes no difference. *)
Theorem normalize_track_shape (value : string) :
  let v := strip value in
  (prefix track_uri_prefix v = true ->
   has_char ":" (_normalize_track_id value) = false)
  /\ (prefix track_uri_prefix v = false ->
      contains "open.spotify.com/track" v = true ->
      has_char "?" (_normalize_track_id value) = false)
  /\ (prefix track_uri_prefix v = false ->
      contains "open.spotify.com/track" v = false ->
      _normalize_track_id value = v)
  /\ _normalize_track_id v = _normalize_track_id value.
Proof.
  intros v. unfold _normalize_track_id. fold v.
  unfold track_uri_prefix. repeat apply conj.
  - intros ->. apply Forall_last; [reflexivity|].
    now apply split_char_segments.
  - intros -> ->. apply Forall_hd; [reflexivity|].
    now apply split_char_segments.
  - now intros -> ->.
  - subst v. now rewrite strip_idempotent.
Qed.

Lemma normalize_track_shape_witness :
  has_char ":" (_normalize_track_id "spotify:track:a:b") = false
  /\ has_char "?" (_normalize_track_id " open.spotify.com/track/x?y?z ") = false
  /\ _normalize_track_id "   " = EmptyString.
Proof.
  split; [|split].
  - exact (proj1 (normalize_track_shape "spotify:track:a:b") eq_refl).
  - exact (proj1 (proj2 (normalize_track_shape " open.spotify.com/track/x?y?z "))
             eq_refl eq_refl).
  - exact (proj1 (proj2 (proj2 (normalize_track_shape "   "))) eq_refl eq_refl).
Defined.

(** ** Audio features *)

Lemma no_features_falsy (data : json) :
  no_features data <-> truthy (first_feature data) = false.
Proof.
  unfold first_feature. split.
  - intros H. destruct H as [data H|d H|d v H N|d H|d x rest H T].
    + destruct data; try reflexivity. now destruct (H kvs).
    + now rewrite H.
    + rewrite H. destruct v; try reflexivity. now destruct (N l).
    + now rewrite H.
    + now rewrite H.
  - destruct data as [| | | | | |d];
      try (intros _; apply nf_not_object; discriminate).
    destruct (lookup "audio_features"%string d) as [v|] eqn:L;
      [|intros _; now apply nf_no_key].
    destruct v as [| | | | |l|];
      try (intros _; apply (nf_not_list d _ L); discriminate).
    destruct l as [|x rest]; [intros _; now apply nf_empty|].
    intros T. now apply (nf_falsy d x rest).
Qed.

Lemma feature_values (d : dict json) (keys : list string) :
  rmap (fun k => (v <- py_get (JObj d) k JNull ;; Ok (k, v))%result) keys
  = Ok (map (fun k => (k, get_or_none d k)) keys).
Proof.
  induction keys as [|k keys IH]; cbn [rmap map]; [reflexivity|].
  rewrite IH. unfold get_or_none. cbn. now destruct (lookup k d).
Qed.

Lemma feature_values_not_object (x : json) :
  (forall d, x <> JObj d) ->
  rmap (fun k => (v <- py_get x k JNull ;; Ok (k, v))%result) feature_keys
  = Raise AttributeError.
Proof.
  intros H. destruct x; try reflexivity. now destruct (H kvs).
Qed.

Lemma audio_features_unfold (track_id : string) (w : World) (s : Sys) :
  audio_features track_id w s
  = match _get audio_features_url (Some [("ids", JStr track_id)]%string) w s with
    | (Raise e, s') => (Raise e, s')
    | (Ok data, s') =>
        if truthy (first_feature data) then
          (rmap (fun k => (v <- py_get (first_feature data) k JNull ;;
                           Ok (k, v))%result) feature_keys, s')
        else (Raise (no_features_error track_id), s')
    end.
Proof.
  cbv [audio_features bind raise lift].
  destruct (_get _ _ w s) as [[data|e] s']; [|reflexivity].
  now destruct (truthy (first_feature data)).
Qed.

(** X3.  What [audio_features] makes of a successful answer of [_get]:
    without a usable first feature object (no object, no [audio_features]
    key, no list, an empty list, or a first element such as [null]) it raises
    [SpotifyAPIError] naming the track, with no cause; with a non-empty
    object it returns the ten features, [None] for the missing ones; with any
    other first element it raises [AttributeError].  A [SpotifyAPIError]
    without cause arises in no other way. *)
Theorem audio_features_outcome (track_id : string) (w : World) (s s' : Sys) :
  let get := _get audio_features_url (Some [("ids", JStr track_id)]%string) w s in
  (forall data,
      get = (Ok data, s') ->
      (no_features data ->
       audio_features track_id w s = (Raise (no_features_error track_id), s'))
      /\ (forall d,
             first_feature data = JObj d -> d <> [] ->
             audio_features track_id w s
             = (Ok (map (fun k => (k, get_or_none d k)) feature_keys), s'))
      /\ (truthy (first_feature data) = true ->
          (forall d, first_feature data <> JObj d) ->
          audio_features track_id w s = (Raise AttributeError, s')))
  /\ (forall msg,
         audio_features track_id w s = (Raise (SpotifyAPIError msg None), s') ->
         SpotifyAPIError msg None = no_features_error track_id
         /\ exists data, get = (Ok data, s') /\ no_features data).
Proof.
  intros get. subst get. split.
  - intros data G. rewrite audio_features_unfold, G. repeat apply conj.
    + intros N. apply no_features_falsy in N. now rewrite N.
    + intros d E D. rewrite E. cbn [truthy].
      destruct d as [|kv d]; [congruence|]. now rewrite feature_values.
    + intros T N. rewrite T. now rewrite (feature_values_not_object _ N).
  - intros msg. rewrite audio_features_unfold.
    destruct (_get _ _ w s) as [[data|e] s1] eqn:G.
    + destruct (truthy (first_feature data)) eqn:T.
      * destruct (first_feature data) as [| | | | | |d] eqn:F;
          try (rewrite feature_values_not_object by discriminate; discriminate).
        rewrite feature_values. discriminate.
      * intros E. assert (E2 : s1 = s') by now injection E.
        subst s1. split.
        { unfold no_features_error in *. now injection E as <-. }
        exists data. split; [reflexivity|]. now apply no_features_falsy.
    + intros [= -> <-].
      destruct (get_domain_error _ _ _ _ _ _ _ G) as (tok & s0 & r & _ & _ & _ & C).
      discriminate C.
Qed.

Lemma audio_features_outcome_witness :
  fst (audio_features "abc" (scripted [Responds (features_answer [JNull])] [])
                      (fresh static_client))
  = Raise (no_features_error "abc")
  /\ fst (audio_features "abc"
            (scripted [Responds (features_answer
                                   [JObj [("tempo", JInt 120)]%string])] [])
            (fresh static_client))
     = Ok (map (fun k => (k, get_or_none [("tempo", JInt 120)]%string k))
               feature_keys)
  /\ fst (audio_features "abc" (scripted [Responds (features_answer [JInt 5])] [])
                         (fresh static_client))
     = Raise AttributeError.
Proof.
  split; [|split].
  - rewrite (proj1 (proj1 (audio_features_outcome "abc"
               (scripted [Responds (features_answer [JNull])] [])
               (fresh static_client) _) _ eq_refl)); [reflexivity|].
    now apply (nf_falsy _ JNull []).
  - rewrite (proj1 (proj2 (proj1 (audio_features_outcome "abc"
               (scripted [Responds (features_answer
                                      [JObj [("tempo", JInt 120)]%string])] [])
               (fresh static_client) _) _ eq_refl))
               [("tempo", JInt 120)]%string eq_refl); [reflexivity|discriminate].
  - rewrite (proj2 (proj2 (proj1 (audio_features_outcome "abc"
               (scripted [Responds (features_answer [JInt 5])] [])
               (fresh static_client) _) _ eq_refl)) eq_refl); [reflexivity|].
    discriminate.
Defined.

(** X4.  Whatever [audio_features] returns has exactly the ten feature keys,
    in the order of the source, each with the value of the first feature
    object or [None]. *)
Theorem audio_features_schema (track_id : string) (w : World) (s s' : Sys)
  (feats : dict json) :
  audio_features track_id w s = (Ok feats, s') ->
  map fst feats = feature_keys
  /\ length feats = 10%nat
  /\ exists data d,
       _get audio_features_url (Some [("ids", JStr track_id)]%string) w s
       = (Ok data, s')
       /\ first_feature data = JObj d
       /\ feats = map (fun k => (k, get_or_none d k)) feature_keys.
Proof.
  rewrite audio_features_unfold.
  destruct (_get _ _ w s) as [[data|e] s1] eqn:G; [|discriminate].
  destruct (truthy (first_feature data)); [|discriminate].
  destruct (first_feature data) as [| | | | | |d] eqn:F;
    try (rewrite feature_values_not_object by discriminate; discriminate).
  rewrite feature_values. intros [= <- <-].
  repeat split. exists data, d. repeat split. exact F.
Qed.

Lemma audio_features_schema_witness :
  exists feats s',
    audio_features "abc"
      (scripted [Responds (features_answer [JObj [("tempo", JInt 120)]%string])] [])
      (fresh static_client) = (Ok feats, s')
    /\ map fst feats = feature_keys.
Proof.
  eexists. eexists. split; [vm_compute; reflexivity|].
  exact (proj1 (audio_features_schema "abc"
                  (scripted [Responds (features_answer
                                         [JObj [("tempo", JInt 120)]%string])] [])
                  (fresh static_client) _ _ eq_refl)).
Defined.

(** ** The configuration of a client *)

Lemma same_config_refl (a : SpotifyClient) : same_config a a.
Proof. repeat split. Qed.

Lemma same_config_trans (a b c : SpotifyClient) :
  same_config a b -> same_config b c -> same_config a c.
Proof.
  intros (A1 & A2 & A3 & A4) (B1 & B2 & B3 & B4).
  repeat split; congruence.
Qed.

Lemma keeps_ret {A : Type} (a : A) : keeps_config (ret a).
Proof. intros w s. apply same_config_refl. Qed.

Lemma keeps_raise {A : Type} (e : exn) : keeps_config (@raise A e).
Proof. intros w s. apply same_config_refl. Qed.

Lemma keeps_lift {A : Type} (r : result A) : keeps_config (lift r).
Proof. intros w s. apply same_config_refl. Qed.

Lemma keeps_bind {A B : Type} (c : M A) (k : A -> M B) :
  keeps_config c -> (forall a, keeps_config (k a)) -> keeps_config (bind c k).
Proof.
  intros Hc Hk w s. unfold bind. specialize (Hc w s).
  destruct (c w s) as [[a|e] s1]; cbn [snd] in *; [|exact Hc].
  exact (same_config_trans _ _ _ (Hk a w s1) Hc).
Qed.

Lemma keeps_get_self : keeps_config get_self.
Proof. intros w s. apply same_config_refl. Qed.

Lemma keeps_get_world : keeps_config get_world.
Proof. intros w s. apply same_config_refl. Qed.

Lemma keeps_set_access_token (v : json) : keeps_config (set_access_token v).
Proof. intros w s. repeat split. Qed.

Lemma keeps_set_expires_at (t : float) : keeps_config (set_expires_at t).
Proof. intros w s. repeat split. Qed.

Lemma keeps_time_time : keeps_config time_time.
Proof. intros w s. apply same_config_refl. Qed.

Lemma keeps_request (c : call) : keeps_config (request c).
Proof.
  intros w s. unfold request.
  destruct (net w (length (trace s)) c); apply same_config_refl.
Qed.

Ltac keeps :=
  repeat first
    [ apply keeps_bind; [|intros ?]
    | apply keeps_ret | apply keeps_raise | apply keeps_lift
    | apply keeps_get_self | apply keeps_get_world
    | apply keeps_set_access_token | apply keeps_set_expires_at
    | apply keeps_time_time | apply keeps_request
    | match goal with
      | |- keeps_config (if ?b then _ else _) => destruct b
      | |- keeps_config (match ?x with _ => _ end) => destruct x
      end ].

Lemma keeps_refresh_token : keeps_config _refresh_token.
Proof. unfold _refresh_token, requests_post. keeps. Qed.

Lemma keeps_get_token : keeps_config _get_token.
Proof.
  unfold _get_token. keeps; apply keeps_refresh_token.
Qed.

Lemma keeps_get (url : string) (params : option (dict json)) :
  keeps_config (_get url params).
Proof.
  unfold _get, requests_get.
  keeps; try apply keeps_get_token; try apply keeps_refresh_token.
Qed.

Lemma keeps_search_tracks (query : string) (limit : Z) :
  keeps_config (search_tracks query limit).
Proof. unfold search_tracks. keeps. Qed.

Lemma keeps_audio_features (track_id : string) :
  keeps_config (audio_features track_id).
Proof. unfold audio_features. keeps. Qed.

(** X5.  The credentials, the market and the static token of a client never
    change: after any sequence of [_refresh_token], [_get_token], [_get] and
    [search_tracks] calls, and after [audio_features], they are what they
    were, whatever the world answered. *)
Theorem config_never_changes (w : World) (os : list op) (s : Sys)
  (track_id : string) :
  same_config (self (run_ops os w s)) (self s)
  /\ same_config (self (snd (audio_features track_id w s))) (self s).
Proof.
  split; [|apply keeps_audio_features].
  revert s. induction os as [|o os IH]; intros s; cbn [run_ops].
  - apply same_config_refl.
  - apply (same_config_trans _ _ _ (IH _)).
    destruct o; cbn [run_op].
    + apply keeps_refresh_token.
    + apply keeps_get_token.
    + apply keeps_get.
    + apply keeps_search_tracks.
Qed.

(** ** The module-level client and the tools *)

Lemma on_spotify_filled {A : Type} (m : M A) (w : World) (getenv : Environ)
  (p : Process) (c : SpotifyClient) :
  spotify p = Some c ->
  on_spotify m w getenv p
  = (fst (m w (running c p)), process_of (snd (m w (running c p)))).
Proof.
  intros H. unfold on_spotify, _get_spotify. rewrite H.
  fold (running c p). now destruct (m w (running c p)).
Qed.

Lemma on_spotify_empty {A : Type} (m : M A) (w : World) (getenv : Environ)
  (p : Process) :
  spotify p = None ->
  on_spotify m w getenv p
  = match __init__ getenv with
    | Ok c => (fst (m w (running c p)), process_of (snd (m w (running c p))))
    | Raise e => (Raise e, p)
    end.
Proof.
  intros H. unfold on_spotify, _get_spotify. rewrite H.
  destruct (__init__ getenv) as [c|e]; [|reflexivity].
  cbn [http_log clock_reads]. fold (running c p).
  now destruct (m w (running c p)).
Qed.

Lemma init_missing (getenv : Environ) :
  ~ provided (getenv "SPOTIFY_ACCESS_TOKEN"%string) ->
  ~ provided (getenv "SPOTIFY_CLIENT_ID"%string)
  \/ ~ provided (getenv "SPOTIFY_CLIENT_SECRET"%string) ->
  __init__ getenv = Raise missing_credentials.
Proof.
  rewrite <- !truthy_opt_not_provided. unfold __init__, missing_credentials.
  intros -> [-> | ->]; cbn; [reflexivity|]. now rewrite orb_true_r.
Qed.

Lemma init_config (getenv : Environ) (c : SpotifyClient) :
  __init__ getenv = Ok c ->
  c = mkClient (getenv "SPOTIFY_CLIENT_ID"%string)
               (getenv "SPOTIFY_CLIENT_SECRET"%string)
               (getenv "SPOTIFY_MARKET"%string)
               (getenv "SPOTIFY_ACCESS_TOKEN"%string) JNull (float_of_Z 0).
Proof.
  unfold __init__. destruct (_ && _); [discriminate|]. now intros [= <-].
Qed.

(** X6.  Without usable credentials in the environment a tool call on an
    empty client slot raises the configuration error, makes no HTTP call and
    reads no clock, and leaves the slot empty, so that the next tool call
    reads the environment again. *)
Theorem tools_without_credentials (w : World) (getenv : Environ) (p : Process)
  (query track_id : string) (limit : option Z) :
  spotify p = None ->
  ~ provided (getenv "SPOTIFY_ACCESS_TOKEN"%string) ->
  ~ provided (getenv "SPOTIFY_CLIENT_ID"%string)
  \/ ~ provided (getenv "SPOTIFY_CLIENT_SECRET"%string) ->
  spotify_search_tracks query limit w getenv p = (Raise missing_credentials, p)
  /\ spotify_track_features track_id w getenv p = (Raise missing_credentials, p).
Proof.
  intros H T C. unfold spotify_search_tracks, spotify_track_features.
  rewrite !on_spotify_empty by exact H.
  now rewrite (init_missing getenv T C).
Qed.

Lemma tools_without_credentials_witness :
  spotify_search_tracks "abba" None (scripted [] [])
                        (env_of [("SPOTIFY_CLIENT_ID", "id")]%string) started
  = (Raise missing_credentials, started).
Proof.
  apply (tools_without_credentials (scripted [] [])
           (env_of [("SPOTIFY_CLIENT_ID", "id")]%string) started
           "abba" "abc" None eq_refl).
  - intros (x & E & _). discriminate E.
  - right. intros (x & E & _). discriminate E.
Defined.

(** X7.  The client is created once.  A tool call on an empty slot with
    usable credentials leaves in the slot a client with the configuration
    read from the environment; a tool call on a filled slot does not read
    the environment at all, runs the method on the client found there, and
    leaves that client, as the method left it, in the slot. *)
Theorem client_created_once (w : World) (getenv : Environ) (p : Process)
  (query : string) (limit : option Z) (track_id : string) :
  (forall c,
      spotify p = None ->
      __init__ getenv = Ok c ->
      exists c1 c2,
        spotify (snd (spotify_search_tracks query limit w getenv p)) = Some c1
        /\ spotify (snd (spotify_track_features track_id w getenv p)) = Some c2
        /\ same_config c1 c /\ same_config c2 c
        /\ client_id c = getenv "SPOTIFY_CLIENT_ID"%string
        /\ client_secret c = getenv "SPOTIFY_CLIENT_SECRET"%string
        /\ market c = getenv "SPOTIFY_MARKET"%string
        /\ _token_override c = getenv "SPOTIFY_ACCESS_TOKEN"%string)
  /\ (forall c getenv',
         spotify p = Some c ->
         spotify_search_tracks query limit w getenv p
         = spotify_search_tracks query limit w getenv' p
         /\ spotify_track_features track_id w getenv p
            = spotify_track_features track_id w getenv' p
         /\ exists c1 c2,
              spotify (snd (spotify_search_tracks query limit w getenv p)) = Some c1
              /\ spotify (snd (spotify_track_features track_id w getenv p)) = Some c2
              /\ same_config c1 c /\ same_config c2 c).
Proof.
  unfold spotify_search_tracks, spotify_track_features. split.
  - intros c H I. rewrite !on_spotify_empty by exact H. rewrite I.
    cbn [snd process_of spotify].
    eexists. eexists. split; [reflexivity|]. split; [reflexivity|].
    split; [apply keeps_search_tracks|]. split; [apply keeps_audio_features|].
    rewrite (init_config getenv c I). repeat split.
  - intros c getenv' H. rewrite !(on_spotify_filled _ _ _ _ c H).
    split; [reflexivity|]. split; [reflexivity|].
    cbn [snd process_of spotify].
    eexists. eexists. split; [reflexivity|]. split; [reflexivity|].
    split; [apply keeps_search_tracks|apply keeps_audio_features].
Qed.

Lemma client_created_once_witness :
  let getenv := env_of [("SPOTIFY_ACCESS_TOKEN", "BQD-static")]%string in
  let p := snd (spotify_search_tracks "abba" None (scripted [Fails Timeout] [])
                                      getenv started) in
  spotify p <> None
  /\ spotify_search_tracks "abba" None (scripted [] []) getenv p
     = spotify_search_tracks "abba" None (scripted [] []) (env_of []) p.
Proof.
  cbv zeta. split.
  - destruct (proj1 (client_created_once (scripted [Fails Timeout] [])
                       (env_of [("SPOTIFY_ACCESS_TOKEN", "BQD-static")]%string)
                       started "abba" None "abc") _ eq_refl eq_refl)
      as (c1 & _ & E & _).
    rewrite E. discriminate.
  - apply (proj2 (client_created_once (scripted [] [])
                    (env_of [("SPOTIFY_ACCESS_TOKEN", "BQD-static")]%string)
                    (snd (spotify_search_tracks "abba" None
                            (scripted [Fails Timeout] [])
                            (env_of [("SPOTIFY_ACCESS_TOKEN", "BQD-static")]%string)
                            started))
                    "abba" None "abc") static_client (env_of []) eq_refl).
Defined.

Lemma audio_features_state (track_id : string) (w : World) (s : Sys) :
  snd (audio_features track_id w s)
  = snd (_get audio_features_url (Some [("ids", JStr track_id)]%string) w s).
Proof.
  rewrite audio_features_unfold.
  destruct (_get _ _ w s) as [[data|e] s']; [|reflexivity].
  now destruct (truthy (first_feature data)).
Qed.

Lemma token_call_config (w : World) (a b : SpotifyClient) :
  same_config a b -> token_call w a = token_call w b.
Proof.
  intros (I & S & _). unfold token_call. now rewrite I, S.
Qed.

Lemma posts_sent_by_get (w : World) (me : SpotifyClient) (url : string)
  (params : option (dict json)) (l : list event) :
  Forall (fun e => fst e = token_call w me) l ->
  Forall (sent_by_get w me url params) l.
Proof. apply Forall_impl. intros e H. now left. Qed.

Lemma refresh_log (w : World) (s : Sys) :
  exists new,
    trace (snd (_refresh_token w s)) = trace s ++ new
    /\ Forall (fun e => fst e = token_call w (self s)) new.
Proof.
  destruct (static_dec (self s)) as [H|H].
  - rewrite (refresh_static w s H). exists []. cbn. rewrite app_nil_r. now split.
  - rewrite (refresh_dynamic_trace w s H). eexists. split; [reflexivity|].
    constructor; [reflexivity|constructor].
Qed.

Lemma get_token_log (w : World) (s : Sys) :
  exists new,
    trace (snd (_get_token w s)) = trace s ++ new
    /\ Forall (fun e => fst e = token_call w (self s)) new.
Proof.
  assert (Z0 : exists new,
             trace s = trace s ++ new
             /\ Forall (fun e => fst e = token_call w (self s)) new).
  { exists []. rewrite app_nil_r. now split. }
  destruct (static_dec (self s)) as [H|H].
  - now rewrite (get_token_static w s H).
  - rewrite (get_token_dynamic w s H).
    assert (K : forall s0, self s0 = self s -> trace s0 = trace s ->
                exists new,
                  trace (snd (match _refresh_token w s0 with
                              | (Ok _, s1) => checked_token s1
                              | (Raise e, s1) => (Raise e, s1)
                              end)) = trace s ++ new
                  /\ Forall (fun e => fst e = token_call w (self s)) new).
    { intros s0 S T. destruct (refresh_log w s0) as (new & R & F).
      exists new. rewrite <- T, <- S. split; [|exact F].
      destruct (_refresh_token w s0) as [[[]|e] s1]; cbn [snd] in *;
        [now rewrite checked_token_state|exact R]. }
    destruct (negb (truthy (_access_token (self s)))); [now apply K|].
    destruct (expired _ _); [now apply K|].
    now rewrite checked_token_state.
Qed.

Lemma reauthenticate_log (w : World) (url : string) (params : option (dict json))
  (s : Sys) :
  exists new,
    trace (snd (reauthenticate w url params s)) = trace s ++ new
    /\ Forall (sent_by_get w (self s) url params) new.
Proof.
  unfold reauthenticate.
  destruct (refresh_log w s) as (n1 & T1 & F1).
  pose proof (keeps_refresh_token w s) as C1.
  destruct (_refresh_token w s) as [[[]|e] s1]; cbn [snd] in T1, C1.
  2:{ exists n1. cbn [snd]. split; [exact T1|]. now apply posts_sent_by_get. }
  destruct (get_token_log w s1) as (n2 & T2 & F2).
  rewrite (token_call_config w _ _ C1) in F2.
  destruct (_get_token w s1) as [[tok|e] s2]; cbn [snd] in T2.
  2:{ exists (n1 ++ n2). cbn [snd]. rewrite T2, T1, <- app_assoc.
      split; [reflexivity|].
      apply Forall_app. split; now apply posts_sent_by_get. }
  set (c := resource_call w tok url params).
  exists (n1 ++ n2 ++ [(c, net w (length (trace s2)) c)]).
  rewrite request_state. cbn [logged trace].
  rewrite T2, T1, <- !app_assoc. split; [reflexivity|].
  apply Forall_app. split; [now apply posts_sent_by_get|].
  apply Forall_app. split; [now apply posts_sent_by_get|].
  constructor; [|constructor]. right. now exists tok.
Qed.

Lemma fetch_log (w : World) (url : string) (params : option (dict json))
  (tok : json) (s : Sys) :
  let c := resource_call w tok url params in
  exists rest,
    trace (snd (fetch w url params tok s))
    = trace s ++ (c, net w (length (trace s)) c) :: rest
    /\ Forall (sent_by_get w (self s) url params) rest.
Proof.
  intros c. unfold fetch. fold c.
  pose proof (request_state c w s) as R.
  destruct (request c w s) as [[resp|e] s1]; cbn [snd] in R; subst s1.
  2:{ exists []. split; [reflexivity|constructor]. }
  set (s1 := logged c (net w (length (trace s)) c) s).
  destruct (auth_failure resp && negb (truthy_opt (_token_override (self s1)))).
  - destruct (reauthenticate_log w url params s1) as (new & T & F).
    exists new. split; [|exact F].
    destruct (reauthenticate w url params s1) as [[resp'|e] s2];
      [rewrite deliver_state|]; cbn [snd] in T |- *;
      rewrite T; subst s1; cbn [logged trace]; now rewrite <- app_assoc.
  - rewrite deliver_state. exists []. split; [reflexivity|constructor].
Qed.

Lemma get_log (url : string) (params : option (dict json)) (w : World) (s : Sys) :
  exists new,
    trace (snd (_get url params w s)) = trace s ++ new
    /\ Forall (sent_by_get w (self s) url params) new
    /\ (forall tok s1,
           _get_token w s = (Ok tok, s1) ->
           let get := resource_call w tok url params in
           exists pre rest,
             trace s1 = trace s ++ pre
             /\ Forall (fun e => fst e = token_call w (self s)) pre
             /\ new = pre ++ (get, net w (length (trace s1)) get) :: rest)
    /\ (forall e s1,
           _get_token w s = (Raise e, s1) ->
           Forall (fun e => fst e = token_call w (self s)) new).
Proof.
  rewrite get_fetch.
  destruct (get_token_log w s) as (pre & T1 & F1).
  pose proof (keeps_get_token w s) as C1.
  destruct (_get_token w s) as [[tok|e] s1]; cbn [snd] in T1, C1.
  - destruct (fetch_log w url params tok s1) as (rest & T2 & F2).
    unfold sent_by_get in F2. rewrite (token_call_config w _ _ C1) in F2.
    fold (sent_by_get w (self s) url params) in F2.
    set (c := resource_call w tok url params) in *.
    exists (pre ++ (c, net w (length (trace s1)) c) :: rest).
    rewrite T2, T1, <- app_assoc. split; [reflexivity|]. split; [|split].
    + apply Forall_app. split; [now apply posts_sent_by_get|].
      constructor; [right; now exists tok|exact F2].
    + intros tok' s1' [= <- <-]. cbv zeta. fold c. exists pre, rest.
      split; [exact T1|]. split; [exact F1|]. now rewrite T1.
    + intros e s1' [=].
  - exists pre. cbn [snd]. split; [exact T1|].
    split; [now apply posts_sent_by_get|].
    split; [intros tok s1' [=]|intros; exact F1].
Qed.

Lemma on_spotify_client {A : Type} (m : M A) (w : World) (getenv : Environ)
  (p : Process) (c : SpotifyClient) :
  fst (_get_spotify getenv p) = Ok c ->
  snd (on_spotify m w getenv p) = process_of (snd (m w (running c p))).
Proof.
  unfold _get_spotify. destruct (spotify p) as [c0|] eqn:S; cbn [fst].
  - intros [= ->]. now rewrite (on_spotify_filled m w getenv p c S).
  - rewrite (on_spotify_empty m w getenv p S).
    destruct (__init__ getenv) as [c0|e]; cbn [fst]; [|discriminate].
    now intros [= ->].
Qed.

Lemma on_spotify_no_client {A : Type} (m : M A) (w : World) (getenv : Environ)
  (p : Process) (e : exn) :
  fst (_get_spotify getenv p) = Raise e ->
  snd (on_spotify m w getenv p) = p.
Proof.
  unfold _get_spotify. destruct (spotify p) as [c0|] eqn:S; cbn [fst];
    [discriminate|].
  rewrite (on_spotify_empty m w getenv p S).
  now destruct (__init__ getenv) as [c0|e0].
Qed.

Lemma get_tool_log {A : Type} (m : M A) (w : World) (getenv : Environ)
  (p : Process) (c : SpotifyClient) (url : string) (params : option (dict json)) :
  fst (_get_spotify getenv p) = Ok c ->
  snd (m w (running c p)) = snd (_get url params w (running c p)) ->
  tool_log w c p url params (snd (on_spotify m w getenv p)).
Proof.
  intros G E. rewrite (on_spotify_client m w getenv p c G), E.
  destruct (get_log url params w (running c p)) as (new & T & F & K1 & K2).
  exists new. cbn [process_of http_log].
  split; [exact T|]. split; [exact F|]. split; [exact K1|exact K2].
Qed.

(** X8.  What the tools send.  When [_get_spotify] cannot provide a client,
    a tool call logs nothing.  Otherwise, with [c] the client it provides, a
    tool call only appends to the log, and it appends token POSTs of [c] and
    its own GET only: for [spotify_track_features] the audio-features GET
    whose [ids] parameter is the normalised track id, for
    [spotify_search_tracks] the search GET with [q], [type=track] and the
    clamped limit, 5 when none is given.  The GET is sent whenever
    [_get_token] provides a token: the log then grows by the token POSTs of
    [_get_token], the GET with that token as bearer, and what a retry adds.
    When [_get_token] raises, the log grows by token POSTs only. *)
Theorem tool_requests (w : World) (getenv : Environ) (p : Process)
  (query track_id : string) (limit : option Z) :
  let l := match limit with Some l => l | None => 5 end in
  let id := _normalize_track_id track_id in
  (forall e,
      fst (_get_spotify getenv p) = Raise e ->
      http_log (snd (spotify_track_features track_id w getenv p)) = http_log p
      /\ http_log (snd (spotify_search_tracks query limit w getenv p)) = http_log p)
  /\ (forall c,
         fst (_get_spotify getenv p) = Ok c ->
         let ids := [("ids", JStr id)]%string in
         let params := search_params c query l in
         tool_log w c p audio_features_url (Some ids)
                  (snd (spotify_track_features track_id w getenv p))
         /\ tool_log w c p search_url (Some params)
                     (snd (spotify_search_tracks query limit w getenv p))
         /\ lookup "q"%string params = Some (JStr query)
         /\ lookup "type"%string params = Some (JStr "track")
         /\ lookup "limit"%string params = Some (JInt (Z.max 1 (Z.min l 20)))
         /\ forall tok,
              let headers := [("Authorization", "Bearer " ++ py_str w tok);
                              ("Accept", "application/json")]%string in
              resource_call w tok audio_features_url (Some ids)
              = GET audio_features_url headers ids 20
              /\ resource_call w tok search_url (Some params)
                 = GET search_url headers params 20).
Proof.
  cbv zeta. unfold spotify_track_features, spotify_search_tracks. split.
  - intros e G. now rewrite !(on_spotify_no_client _ w getenv p e G).
  - intros c G.
    set (l := match limit with Some l => l | None => 5 end).
    split; [|split; [|split; [|split; [|split]]]].
    + apply get_tool_log; [exact G|]. apply audio_features_state.
    + apply get_tool_log; [exact G|]. apply search_tracks_state.
    + unfold search_params. now destruct (truthy_opt (market c)).
    + unfold search_params. now destruct (truthy_opt (market c)).
    + apply search_params_limit.
    + intros tok. split; [reflexivity|].
      unfold resource_call. now rewrite search_params_nonempty.
Qed.

Lemma tool_requests_witness :
  let w := scripted [Responds (features_answer [])] [] in
  let getenv := env_of [("SPOTIFY_ACCESS_TOKEN", "BQD-static")]%string in
  exists pre rest,
    http_log (snd (spotify_track_features "spotify:track:abc" w getenv started))
    = pre ++ (GET audio_features_url
                  [("Authorization", "Bearer BQD-static");
                   ("Accept", "application/json")]%string
                  [("ids", JStr "abc")]%string 20,
              Responds (features_answer [])) :: rest.
Proof.
  cbv zeta.
  destruct (proj2 (tool_requests (scripted [Responds (features_answer [])] [])
                     (env_of [("SPOTIFY_ACCESS_TOKEN", "BQD-static")]%string)
                     started "abba" "spotify:track:abc" None)
              static_client eq_refl) as ((new & T & _ & K & _) & _).
  destruct (K (JStr "BQD-static") (running static_client started) eq_refl)
    as (pre & rest & _ & _ & E).
  exists pre, rest. rewrite T, E. reflexivity.
Defined.

(** ** Where the error message comes from *)




(** ** More on the authenticated GET *)

Lemma not_error_status (r : Response) :
  ~ error_status r -> raise_for_status r = Ok tt /\ auth_failure r = false.
Proof.
  unfold error_status, raise_for_status, auth_failure. intros H. split.
  - destruct (400 <=? status_code r) eqn:A; [|reflexivity].
    destruct (status_code r <? 600) eqn:B; [|reflexivity].
    apply Z.leb_le in A. apply Z.ltb_lt in B. lia.
  - apply orb_false_iff. split; apply Z.eqb_neq; lia.
Qed.

(** X10.  Every status outside 400 to 599 counts as success: [_get] makes
    no further call and returns the parsed body, whatever the status (204 or
    304 as well as 200); when the body is not JSON it raises the decoding
    error of [resp.json()], not a [SpotifyAPIError]. *)
Theorem get_success (w : World) (s s1 : Sys) (url : string)
  (params : option (dict json)) (tok : json) (r : Response) :
  _get_token w s = (Ok tok, s1) ->
  let get := resource_call w tok url params in
  net w (length (trace s1)) get = Responds r ->
  ~ error_status r ->
  let s' := logged get (Responds r) s1 in
  (forall payload, json_body r = Some payload ->
                   _get url params w s = (Ok payload, s'))
  /\ (json_body r = None -> _get url params w s = (Raise JSONDecodeError, s')).
Proof.
  intros G get N E s'. destruct (not_error_status r E) as [R A].
  assert (X : _get url params w s = (resp_json r, s')).
  { rewrite get_fetch, G. unfold fetch, request. fold get. rewrite N, A.
    cbn [andb]. unfold deliver. now rewrite R. }
  rewrite X. unfold resp_json. split.
  - now intros payload ->.
  - now intros ->.
Qed.

Lemma get_success_witness :
  fst (_get "https://api.spotify.com/v1/me" None
            (scripted [Responds (mkResponse 204 EmptyString None)] [])
            (fresh static_client))
  = Raise JSONDecodeError.
Proof.
  rewrite (proj2 (get_success
                    (scripted [Responds (mkResponse 204 EmptyString None)] [])
                    (fresh static_client) (fresh static_client)
                    "https://api.spotify.com/v1/me" None (JStr "BQD-static")
                    (mkResponse 204 EmptyString None) eq_refl eq_refl
                    ltac:(unfold error_status; cbn; lia)) eq_refl).
  reflexivity.
Defined.

Lemma posts_only_count (l : list event) :
  Forall (fun e => is_post e = true) l ->
  gets l = [] /\ length (posts l) = length l.
Proof.
  induction 1 as [|e l He Hl [IH1 IH2]]; [now split|].
  unfold gets, posts, is_get in *. cbn. rewrite He. cbn. now rewrite IH1, IH2.
Qed.

Lemma refresh_calls (w : World) (s : Sys) :
  exists new,
    trace (snd (_refresh_token w s)) = trace s ++ new
    /\ Forall (fun e => is_post e = true) new /\ (length new <= 1)%nat.
Proof.
  destruct (static_dec (self s)) as [H|H].
  - rewrite (refresh_static w s H). exists []. cbn. rewrite app_nil_r.
    repeat split; [constructor|lia].
  - rewrite (refresh_dynamic_trace w s H). eexists. split; [reflexivity|].
    split; [repeat constructor|cbn; lia].
Qed.

Lemma get_token_calls (w : World) (s : Sys) :
  exists new,
    trace (snd (_get_token w s)) = trace s ++ new
    /\ Forall (fun e => is_post e = true) new /\ (length new <= 1)%nat.
Proof.
  assert (Z0 : exists new,
             trace s = trace s ++ new
             /\ Forall (fun e => is_post e = true) new /\ (length new <= 1)%nat).
  { exists []. rewrite app_nil_r. repeat split; [constructor|cbn; lia]. }
  destruct (static_dec (self s)) as [H|H].
  - now rewrite (get_token_static w s H).
  - rewrite (get_token_dynamic w s H).
    assert (K : forall s0, trace s0 = trace s ->
                exists new,
                  trace (snd (match _refresh_token w s0 with
                              | (Ok _, s1) => checked_token s1
                              | (Raise e, s1) => (Raise e, s1)
                              end)) = trace s ++ new
                  /\ Forall (fun e => is_post e = true) new
                  /\ (length new <= 1)%nat).
    { intros s0 T. destruct (refresh_calls w s0) as (new & R & F & L).
      exists new. rewrite <- T. split; [|now split].
      destruct (_refresh_token w s0) as [[[]|e] s1]; cbn [snd] in *;
        [now rewrite checked_token_state|exact R]. }
    destruct (negb (truthy (_access_token (self s)))); [now apply K|].
    destruct (expired _ _); [now apply K|].
    now rewrite checked_token_state.
Qed.

Lemma gets_app (a b : list event) :
  length (gets (a ++ b)) = (length (gets a) + length (gets b))%nat.
Proof. unfold gets. now rewrite filter_app, length_app. Qed.

Lemma posts_app (a b : list event) :
  length (posts (a ++ b)) = (length (posts a) + length (posts b))%nat.
Proof. unfold posts. now rewrite filter_app, length_app. Qed.

Lemma reauthenticate_calls (w : World) (url : string)
  (params : option (dict json)) (s : Sys) :
  exists new,
    trace (snd (reauthenticate w url params s)) = trace s ++ new
    /\ (length (posts new) <= 2)%nat
    /\ (length (gets new) <= 1)%nat
    /\ (forall r, fst (reauthenticate w url params s) = Ok r ->
                  length (gets new) = 1%nat).
Proof.
  unfold reauthenticate.
  destruct (refresh_calls w s) as (n1 & T1 & F1 & L1).
  destruct (posts_only_count n1 F1) as [G1 P1].
  destruct (_refresh_token w s) as [[[]|e] s1]; cbn [snd] in T1.
  2:{ exists n1. cbn [fst snd]. rewrite G1, P1.
      repeat split; [exact T1|lia|cbn; lia|discriminate]. }
  destruct (get_token_calls w s1) as (n2 & T2 & F2 & L2).
  destruct (posts_only_count n2 F2) as [G2 P2].
  destruct (_get_token w s1) as [[tok|e] s2]; cbn [snd] in T2.
  2:{ exists (n1 ++ n2). cbn [fst snd].
      rewrite T2, T1, <- app_assoc, posts_app, gets_app, G1, G2, P1, P2.
      repeat split; [lia|cbn; lia|discriminate]. }
  set (c := resource_call w tok url params).
  exists (n1 ++ n2 ++ [(c, net w (length (trace s2)) c)]).
  rewrite request_state. cbn [logged trace].
  rewrite T2, T1, <- !app_assoc, !posts_app, !gets_app, G1, G2, P1, P2.
  repeat split; cbn; lia.
Qed.

Lemma fetch_calls (w : World) (url : string) (params : option (dict json))
  (tok : json) (s : Sys) :
  exists new,
    trace (snd (fetch w url params tok s)) = trace s ++ new
    /\ (length (posts new) <= 2)%nat
    /\ (1 <= length (gets new) <= 2)%nat
    /\ (forall msg r,
           not_static (self s) ->
           fst (fetch w url params tok s)
           = Raise (SpotifyAPIError msg (Some (HTTPError r))) ->
           auth_failure r = true ->
           length (gets new) = 2%nat).
Proof.
  unfold fetch. set (c := resource_call w tok url params).
  set (ev := (c, net w (length (trace s)) c)).
  assert (G0 : length (gets [ev]) = 1%nat) by reflexivity.
  assert (P0 : length (posts [ev]) = 0%nat) by reflexivity.
  pose proof (request_state c w s) as R.
  destruct (request c w s) as [[resp|e] s1] eqn:Q; cbn [snd] in R; subst s1.
  2:{ exists [ev]. cbn [fst snd logged trace]. rewrite G0, P0.
      split; [reflexivity|]. split; [lia|]. split; [lia|].
      intros msg r _ E. apply request_raises in Q. injection E as ->.
      discriminate Q. }
  set (s1 := logged c (net w (length (trace s)) c) s).
  destruct (auth_failure resp && negb (truthy_opt (_token_override (self s1))))
    eqn:B.
  - destruct (reauthenticate_calls w url params s1) as (n & T & P & G & K).
    exists ([ev] ++ n).
    assert (X : trace s1 ++ n = trace s ++ [ev] ++ n).
    { subst s1. cbn [logged trace]. now rewrite <- app_assoc. }
    rewrite !posts_app, !gets_app, G0, P0.
    destruct (reauthenticate w url params s1) as [[r'|e] s2] eqn:A;
      cbn [fst snd] in *.
    + rewrite deliver_state, T. split; [exact X|].
      rewrite (K r' eq_refl). split; [lia|]. split; [lia|]. intros; lia.
    + rewrite T. split; [exact X|]. split; [lia|]. split; [lia|].
      intros msg r _ E. injection E as ->.
      now destruct (reauthenticate_never_domain _ _ _ _ _ _ msg
                      (Some (HTTPError r)) A).
  - rewrite deliver_state. exists [ev]. rewrite G0, P0.
    split; [reflexivity|]. split; [lia|]. split; [lia|].
    intros msg r H E Af.
    assert (E' : deliver w resp s1
                 = (Raise (SpotifyAPIError msg (Some (HTTPError r))), s1))
      by (rewrite (surjective_pairing (deliver w resp s1)), E, deliver_state;
          reflexivity).
    apply deliver_domain_error in E' as (_ & _ & E'). injection E' as <-.
    unfold not_static in H. unfold s1 in B. cbn [logged self] in B.
    rewrite Af, H in B. discriminate B.
Qed.

(** X11.  [_get] is bounded: whatever the world answers, one call of
    [_get] makes at most two resource GETs and at most three calls to the
    token endpoint. *)
Theorem get_calls_bounded (w : World) (s : Sys) (url : string)
  (params : option (dict json)) :
  exists new,
    trace (snd (_get url params w s)) = trace s ++ new
    /\ (length (gets new) <= 2)%nat
    /\ (length (posts new) <= 3)%nat
    /\ (length new <= 5)%nat.
Proof.
  rewrite get_fetch.
  destruct (get_token_calls w s) as (n1 & T1 & F1 & L1).
  destruct (posts_only_count n1 F1) as [G1 P1].
  assert (S : forall l : list event,
             length l = (length (gets l) + length (posts l))%nat).
  { induction l as [|e l IH]; [reflexivity|].
    unfold gets, posts, is_get in *. cbn.
    destruct (is_post e); cbn; lia. }
  destruct (_get_token w s) as [[tok|e] s1]; cbn [snd] in T1.
  - destruct (fetch_calls w url params tok s1) as (n2 & T2 & P2 & G2 & _).
    exists (n1 ++ n2). rewrite T2, T1, <- app_assoc.
    rewrite (S (n1 ++ n2)), posts_app, gets_app, G1, P1.
    repeat split; cbn; lia.
  - exists n1. rewrite (S n1), G1, P1. repeat split; cbn; try lia. exact T1.
Qed.

(** X12.  A non-static client reports an authorisation failure only after
    its one retry: when [_get] raises the [SpotifyAPIError] of a 401 or 403
    response, it has made exactly two resource GETs. *)
Theorem auth_failure_after_retry (w : World) (s s' : Sys) (url : string)
  (params : option (dict json)) (msg : string) (r : Response) :
  not_static (self s) ->
  _get url params w s = (Raise (SpotifyAPIError msg (Some (HTTPError r))), s') ->
  auth_failure r = true ->
  exists new,
    trace s' = trace s ++ new /\ length (gets new) = 2%nat.
Proof.
  intros H E A. rewrite get_fetch in E.
  destruct (get_token_calls w s) as (n1 & T1 & F1 & L1).
  destruct (posts_only_count n1 F1) as [G1 P1].
  pose proof (get_token_frame w s) as (O & _).
  destruct (_get_token w s) as [[tok|e] s1] eqn:G; cbn [snd] in T1, O.
  - destruct (fetch_calls w url params tok s1) as (n2 & T2 & _ & _ & K).
    exists (n1 ++ n2). rewrite E in T2, K. cbn [fst snd] in T2, K.
    rewrite T2, T1, <- app_assoc. split; [reflexivity|].
    rewrite gets_app, G1. cbn. apply (K msg r); auto.
    unfold not_static in *. now rewrite O.
  - injection E as -> _.
    now destruct (get_token_never_domain w s s1 _ msg (Some (HTTPError r)) G).
Qed.

Lemma auth_failure_after_retry_witness :
  exists new,
    trace (snd (_get "https://api.spotify.com/v1/me" None
                     (scripted [Responds forbidden;
                                Responds (token_response "BQC-1" 3600);
                                Responds forbidden] [float_of_Z 10; float_of_Z 11; float_of_Z 12])
                     (fresh cached_client)))
    = [] ++ new
    /\ length (gets new) = 2%nat.
Proof.
  eapply (auth_failure_after_retry
            (scripted [Responds forbidden; Responds (token_response "BQC-1" 3600);
                       Responds forbidden] [float_of_Z 10; float_of_Z 11; float_of_Z 12])
            (fresh cached_client) _ "https://api.spotify.com/v1/me" None _
            forbidden eq_refl).
  - vm_compute. reflexivity.
  - reflexivity.
Defined.

(** ** The life of a cached token *)

(** X13.  After a successful token exchange that returned a non-empty token
    and a lifetime that converts to a float, the stored expiry is the float
    [now + lifetime - 60], and [_get_token] answers from the cache, with no
    HTTP call, when its test [time.time() >= expiry] is false, and goes back
    to the token endpoint when the test is true.  For clock values that are
    multiples of [2^-k] seconds of at most 53 bits nothing is rounded, and
    the test is the comparison of the numbers: the cache answers strictly
    before [now + lifetime - 60] and no longer from then on.  A lifetime of
    60 seconds or less therefore disables the cache: with such a clock that
    does not run backwards every [_get_token] fetches a new token. *)
Theorem token_cached_until_expiry (w : World) (s : Sys) (r : Response)
  (d : dict json) (tok : json) (lifetime : Z) (expiry : float) :
  not_static (self s) ->
  net w (length (trace s)) (token_call w (self s)) = Responds r ->
  raise_for_status r = Ok tt ->
  json_body r = Some (JObj d) ->
  lookup "access_token"%string d = Some tok ->
  announced_lifetime w d = Ok lifetime ->
  truthy tok = true ->
  stored_expiry (clock w (reads s)) lifetime = Ok expiry ->
  let s1 := snd (_refresh_token w s) in
  let later := clock w (reads s1) in
  let refetched :=
    exists o, trace (snd (_get_token w s1))
              = trace s1 ++ [(token_call w (self s), o)] in
  _expires_at (self s1) = expiry
  /\ (expired later expiry = false -> _get_token w s1 = (Ok tok, tick s1))
  /\ (expired later expiry = true -> refetched)
  /\ (forall (m m' : Z) (k : nat),
         clock w (reads s) = dyadic m k ->
         later = dyadic m' k ->
         (k <= 1022)%nat -> 0 <= m -> 0 <= lifetime ->
         60 * 2 ^ Z.of_nat k <= m + lifetime * 2 ^ Z.of_nat k < 2 ^ 53 ->
         0 <= m' < 2 ^ 53 ->
         let exact := m + (lifetime - 60) * 2 ^ Z.of_nat k in
         expiry = dyadic exact k
         /\ (m' < exact -> _get_token w s1 = (Ok tok, tick s1))
         /\ (exact <= m' -> refetched)
         /\ (lifetime <= 60 -> m <= m' -> refetched)).
Proof.
  intros H N S200 B L A T X. cbv zeta.
  rewrite (refresh_succeeds w s r d tok lifetime expiry H N S200 B L A X).
  cbn [snd]. set (s1 := store_expiry _ _).
  set (later := clock w (reads s1)).
  set (refetched := exists o, trace (snd (_get_token w s1))
                              = trace s1 ++ [(token_call w (self s), o)]).
  assert (H1 : not_static (self s1)) by exact H.
  assert (G : _get_token w s1
              = if expired later expiry then
                  match _refresh_token w (tick s1) with
                  | (Ok _, s') => checked_token s'
                  | (Raise e, s') => (Raise e, s')
                  end
                else checked_token (tick s1)).
  { rewrite (get_token_dynamic w s1 H1).
    change (_access_token (self s1)) with tok. now rewrite T. }
  assert (R : expired later expiry = true -> refetched).
  { intros E. subst refetched. rewrite G, E.
    pose proof (refresh_dynamic_trace w (tick s1) H1) as Y. cbv zeta in Y.
    change (token_call w (self (tick s1))) with (token_call w (self s)) in Y.
    change (trace (tick s1)) with (trace s1) in Y.
    eexists.
    destruct (_refresh_token w (tick s1)) as [[[]|e] s2]; cbn [snd] in Y |- *;
      [rewrite checked_token_state|]; exact Y. }
  assert (C : expired later expiry = false -> _get_token w s1 = (Ok tok, tick s1)).
  { intros E. rewrite G, E. now apply checked_token_truthy. }
  split; [reflexivity|]. split; [exact C|]. split; [exact R|].
  intros m m' k Em Em' K M L0 Bd Bm'.
  assert (P : 0 < 2 ^ Z.of_nat k) by (apply Z.pow_pos_nonneg; lia).
  assert (Ex : expiry = dyadic (m + (lifetime - 60) * 2 ^ Z.of_nat k) k).
  { rewrite Em, stored_expiry_exact in X by assumption. now injection X. }
  assert (Cmp : expired later expiry
                = (m + (lifetime - 60) * 2 ^ Z.of_nat k <=? m')).
  { unfold expired. rewrite Ex, Em'. apply fge_exact; lia. }
  split; [exact Ex|]. split; [|split].
  - intros Lt. apply C. rewrite Cmp. apply Z.leb_gt. lia.
  - intros Le. apply R. rewrite Cmp. apply Z.leb_le. lia.
  - intros Le Mono. apply R. rewrite Cmp. apply Z.leb_le. nia.
Qed.

Lemma token_cached_until_expiry_witness :
  let w := scripted [Responds (token_response "BQC-1" 3600)]
                    [float_of_Z 1000; float_of_Z 2000] in
  let s1 := snd (_refresh_token w (fresh dynamic_client)) in
  _expires_at (self s1) = float_of_Z 4540
  /\ _get_token w s1 = (Ok (JStr "BQC-1"), tick s1).
Proof.
  cbv zeta.
  destruct (token_cached_until_expiry
              (scripted [Responds (token_response "BQC-1" 3600)]
                        [float_of_Z 1000; float_of_Z 2000])
              (fresh dynamic_client) (token_response "BQC-1" 3600)
              [("access_token", JStr "BQC-1"); ("token_type", JStr "Bearer");
               ("expires_in", JInt 3600)]%string (JStr "BQC-1") 3600
              (float_of_Z 4540)
              eq_refl eq_refl eq_refl eq_refl eq_refl eq_refl eq_refl eq_refl)
    as (E & C & _).
  split; [exact E|]. apply C. reflexivity.
Defined.

(** X14.  A failed [_refresh_token] never moves the expiry, and it leaves
    the cached token alone as well unless the answer did carry an
    [access_token]: when its [expires_in] cannot be made an [int], or is an
    [int] too large for a float ([OverflowError]), the new token is stored
    with the old expiry.  The failure is logged as the one POST. *)
Theorem refresh_failure_state (w : World) (s s' : Sys) (e : exn) :
  not_static (self s) ->
  _refresh_token w s = (Raise e, s') ->
  _expires_at (self s') = _expires_at (self s)
  /\ (exists o, trace s' = trace s ++ [(token_call w (self s), o)])
  /\ (_access_token (self s') = _access_token (self s)
      \/ exists r d tok,
           net w (length (trace s)) (token_call w (self s)) = Responds r
           /\ json_body r = Some (JObj d)
           /\ lookup "access_token"%string d = Some tok
           /\ ((forall n, announced_lifetime w d <> Ok n)
               \/ exists n, announced_lifetime w d = Ok n
                            /\ float_of_int n = Raise OverflowError
                            /\ e = OverflowError)
           /\ _access_token (self s') = tok).
Proof.
  intros H E.
  pose proof (refresh_dynamic_trace w s H) as T. cbv zeta in T.
  rewrite E in T. cbn [snd] in T.
  rewrite (refresh_dynamic w s H) in E. cbv zeta in E.
  split; [|split; [eexists; exact T|]].
  - destruct (net w _ _) as [t|r]; [now injection E as _ <-|].
    unfold absorb_token_response in E.
    destruct (raise_for_status r); [|now injection E as _ <-].
    destruct (resp_json r) as [payload|]; [|now injection E as _ <-].
    destruct (py_getitem payload "access_token"); [|now injection E as _ <-].
    destruct (rbind _ _); [discriminate|]. now injection E as _ <-.
  - destruct (net w _ _) as [t|r] eqn:N; [left; now injection E as _ <-|].
    unfold absorb_token_response, resp_json in E.
    destruct (raise_for_status r); [|left; now injection E as _ <-].
    destruct (json_body r) as [payload|] eqn:B; [|left; now injection E as _ <-].
    destruct payload as [| | | | | |d];
      try (left; now injection E as _ <-).
    cbn [py_getitem] in E.
    destruct (lookup "access_token"%string d) as [tok|] eqn:L;
      [|left; now injection E as _ <-].
    right. exists r, d, tok.
    split; [first [reflexivity|assumption]|].
    split; [first [reflexivity|assumption]|].
    split; [first [reflexivity|assumption]|].
    assert (A : rbind (py_get (JObj d) "expires_in" (JInt 3600))
                      (fun l => rbind (py_int w l)
                                      (fun n => stored_expiry
                                                  (clock w (reads (logged
                                                     (token_call w (self s))
                                                     (Responds r) s))) n))
                = rbind (announced_lifetime w d)
                        (fun n => stored_expiry (clock w (reads s)) n)).
    { unfold announced_lifetime. cbn [py_get rbind logged reads].
      now destruct (lookup "expires_in"%string d). }
    rewrite A in E. clear A.
    destruct (announced_lifetime w d) as [n|e0]; cbn [rbind] in E.
    + destruct (stored_expiry _ n) eqn:X; [discriminate|].
      injection E as <- <-.
      destruct (stored_expiry_raises _ _ _ X) as [-> F].
      split; [|reflexivity]. right. now exists n.
    + injection E as _ <-. split; [|reflexivity]. left. discriminate.
Qed.

Lemma refresh_failure_state_witness :
  (let w := scripted [Responds (mkResponse 200 EmptyString
                                  (Some (JObj [("access_token", JStr "BQC-9");
                                               ("expires_in", JNull)]%string)))]
                     [float_of_Z 7] in
   let s' := snd (_refresh_token w (fresh cached_client)) in
   _expires_at (self s') = float_of_Z 100 /\ _access_token (self s') = JStr "BQC-9")
  /\ (let w := scripted [Responds (token_response "BQC-9" (10 ^ 400))]
                        [float_of_Z 7] in
      let s' := snd (_refresh_token w (fresh cached_client)) in
      _expires_at (self s') = float_of_Z 100
      /\ _access_token (self s') = JStr "BQC-9").
Proof.
  cbv zeta. split.
  - destruct (refresh_failure_state
                (scripted [Responds (mkResponse 200 EmptyString
                                       (Some (JObj [("access_token", JStr "BQC-9");
                                                    ("expires_in", JNull)]%string)))]
                          [float_of_Z 7])
                (fresh cached_client) _ TypeError eq_refl eq_refl) as (A & _ & _).
    split; [exact A|reflexivity].
  - assert (E : _refresh_token
                  (scripted [Responds (token_response "BQC-9" (10 ^ 400))]
                            [float_of_Z 7]) (fresh cached_client)
                = (Raise OverflowError,
                   tick (store_token (JStr "BQC-9")
                           (logged (token_call
                                      (scripted [Responds (token_response "BQC-9"
                                                             (10 ^ 400))]
                                                [float_of_Z 7])
                                      cached_client)
                                   (Responds (token_response "BQC-9" (10 ^ 400)))
                                   (fresh cached_client)))))
      by (vm_compute; reflexivity).
    destruct (refresh_failure_state
                (scripted [Responds (token_response "BQC-9" (10 ^ 400))]
                          [float_of_Z 7])
                (fresh cached_client) _ OverflowError eq_refl E) as (A & _ & _).
    rewrite E. cbn [snd] in *. split; [exact A|reflexivity].
Defined.

(** X15.  The token obtained is the token sent.  A non-static client
    without a cached token that calls [_get] goes to the token endpoint first,
    without reading the clock.  When the answer carries the string [t] as
    [access_token] and an expiry can be computed from it ([expires_in] is
    absent or can be made an [int], and that converts to a float), the next
    call is the resource GET with the header [Authorization: Bearer t].  When
    no expiry can be computed, [_get] raises the error of that computation
    and the token POST remains its only call. *)
Theorem first_use_sends_new_token (w : World) (s : Sys) (url : string)
  (params : option (dict json)) (r : Response) (d : dict json) (t : string) :
  not_static (self s) ->
  truthy (_access_token (self s)) = false ->
  net w (length (trace s)) (token_call w (self s)) = Responds r ->
  raise_for_status r = Ok tt ->
  json_body r = Some (JObj d) ->
  lookup "access_token"%string d = Some (JStr t) ->
  let get := GET url [("Authorization", "Bearer " ++ t);
                      ("Accept", "application/json")]%string
                 (params_or_empty params) 20 in
  let expiry := (lifetime <- announced_lifetime w d ;;
                 stored_expiry (clock w (reads s)) lifetime)%result in
  (forall expires_at,
      expiry = Ok expires_at ->
      exists rest,
        trace (snd (_get url params w s))
        = trace s ++ (token_call w (self s), Responds r)
                  :: (get, net w (S (length (trace s))) get) :: rest)
  /\ (forall e,
         expiry = Raise e ->
         fst (_get url params w s) = Raise e
         /\ trace (snd (_get url params w s))
            = trace s ++ [(token_call w (self s), Responds r)]).
Proof.
  intros H T N S200 B L get expiry.
  rewrite get_fetch, (get_token_dynamic w s H), T. cbn [negb].
  rewrite (refresh_parsed w s r d (JStr t) H N S200 B L). cbv zeta.
  fold expiry. split.
  - intros expires_at ->.
    set (s1 := store_expiry _ _).
    rewrite (checked_token_str s1 t eq_refl).
    destruct (fetch_trace w url params (JStr t) s1) as (rest & F & _).
    exists rest. rewrite F.
    change (trace s1) with (trace s ++ [(token_call w (self s), Responds r)]).
    rewrite length_app, <- app_assoc. cbn [length app].
    now rewrite Nat.add_1_r.
  - intros e ->. split; reflexivity.
Qed.

Lemma first_use_sends_new_token_witness :
  (exists rest,
      trace (snd (_get "https://api.spotify.com/v1/me" None
                       (scripted [Responds (token_response "BQC-1" 3600);
                                  Responds ok_response] [float_of_Z 5])
                       (fresh dynamic_client)))
      = (token_call (scripted [Responds (token_response "BQC-1" 3600);
                               Responds ok_response] [float_of_Z 5]) dynamic_client,
         Responds (token_response "BQC-1" 3600))
        :: (GET "https://api.spotify.com/v1/me"
                [("Authorization", "Bearer BQC-1"); ("Accept", "application/json")]%string
                [] 20, Responds ok_response) :: rest)
  /\ fst (_get "https://api.spotify.com/v1/me" None
               (scripted [Responds (token_response "BQC-1" (10 ^ 400));
                          Responds ok_response] [float_of_Z 5])
               (fresh dynamic_client)) = Raise OverflowError.
Proof.
  split.
  - destruct (proj1 (first_use_sends_new_token
                       (scripted [Responds (token_response "BQC-1" 3600);
                                  Responds ok_response] [float_of_Z 5])
                       (fresh dynamic_client) "https://api.spotify.com/v1/me" None
                       (token_response "BQC-1" 3600)
                       [("access_token", JStr "BQC-1"); ("token_type", JStr "Bearer");
                        ("expires_in", JInt 3600)]%string "BQC-1"
                       eq_refl eq_refl eq_refl eq_refl eq_refl eq_refl)
                (float_of_Z 3545) eq_refl)
      as (rest & E).
    exists rest. exact E.
  - apply (proj2 (first_use_sends_new_token
                    (scripted [Responds (token_response "BQC-1" (10 ^ 400));
                               Responds ok_response] [float_of_Z 5])
                    (fresh dynamic_client) "https://api.spotify.com/v1/me" None
                    (token_response "BQC-1" (10 ^ 400))
                    [("access_token", JStr "BQC-1"); ("token_type", JStr "Bearer");
                     ("expires_in", JInt (10 ^ 400))]%string "BQC-1"
                    eq_refl eq_refl eq_refl eq_refl eq_refl eq_refl)
             OverflowError).
    vm_compute. reflexivity.
Defined.

(** X16.  A client as [__init__] returns it holds no token, and when it is
    not static it has a non-empty client id and a non-empty client secret, so
    that the Basic credentials of its token request are [id:secret] and never
    contain the text [None]; its first [_get_token] goes to the token
    endpoint. *)
Theorem constructed_client (getenv : Environ) (c : SpotifyClient) :
  __init__ getenv = Ok c ->
  _access_token c = JNull
  /\ _expires_at c = float_of_Z 0
  /\ (not_static c ->
      exists id secret,
        client_id c = Some id /\ id <> EmptyString
        /\ client_secret c = Some secret /\ secret <> EmptyString
        /\ forall w,
             token_call w c
             = POST token_url
                    [("grant_type", "client_credentials")]%string
                    [("Authorization",
                      "Basic " ++ b64encode w (id ++ ":" ++ secret));
                     ("Content-Type", "application/x-www-form-urlencoded");
                     ("Accept", "application/json")]%string
                    20
             /\ trace (snd (_get_token w (fresh c)))
                = [(token_call w c, net w 0 (token_call w c))]).
Proof.
  intros I. pose proof (init_config getenv c I) as E.
  unfold __init__ in I.
  destruct (negb _ && _) eqn:G; [discriminate|]. clear I.
  rewrite E. cbn [_access_token _expires_at]. split; [reflexivity|].
  split; [reflexivity|].
  unfold not_static. cbn [_token_override]. intros N. rewrite N in G.
  cbn [negb andb] in G. apply orb_false_iff in G as [G1 G2].
  apply negb_false_iff in G1, G2.
  apply truthy_opt_provided in G1 as (id & E1 & N1).
  apply truthy_opt_provided in G2 as (secret & E2 & N2).
  exists id, secret. cbn [client_id client_secret].
  repeat split; try assumption.
  - unfold token_call. cbn [client_id client_secret]. now rewrite E1, E2.
  - rewrite <- E.
    assert (H : not_static (self (fresh c))) by (rewrite E; exact N).
    rewrite (get_token_dynamic w (fresh c) H).
    replace (truthy (_access_token (self (fresh c)))) with false
      by (now rewrite E).
    cbn [negb].
    pose proof (refresh_dynamic_trace w (fresh c) H) as T. cbv zeta in T.
    destruct (_refresh_token w (fresh c)) as [[[]|e] s1]; cbn [snd] in T |- *;
      [rewrite checked_token_state|]; exact T.
Qed.

Lemma constructed_client_witness :
  exists c,
    __init__ (env_of [("SPOTIFY_CLIENT_ID", "id");
                      ("SPOTIFY_CLIENT_SECRET", "secret")]%string) = Ok c
    /\ _access_token c = JNull.
Proof.
  eexists. split; [reflexivity|].
  apply (constructed_client
           (env_of [("SPOTIFY_CLIENT_ID", "id");
                    ("SPOTIFY_CLIENT_SECRET", "secret")]%string) _ eq_refl).
Defined.

(** ** Search results *)

Lemma rmap_ok {A B : Type} (f : A -> result B) (l : list A) (l' : list B) :
  rmap f l = Ok l' -> Forall2 (fun a b => f a = Ok b) l l'.
Proof.
  revert l'. induction l as [|a l IH]; intros l'; cbn [rmap].
  - intros [= <-]. constructor.
  - destruct (f a) as [b|] eqn:E; cbn [rbind]; [|discriminate].
    destruct (rmap f l) as [bs|]; cbn [rbind]; [|discriminate].
    intros [= <-]. constructor; [exact E|now apply IH].
Qed.

Lemma py_join_strings (sep : string) (names : list string) :
  py_join sep (map JStr names) = Ok (String.concat sep names).
Proof.
  induction names as [|n names IH]; [reflexivity|].
  cbn [map py_join]. destruct names as [|m names]; [reflexivity|].
  cbn [map] in *. rewrite IH. reflexivity.
Qed.

Lemma py_join_ok (sep : string) (items : list json) (joined : string) :
  py_join sep items = Ok joined ->
  exists names, items = map JStr names /\ joined = String.concat sep names.
Proof.
  revert joined. induction items as [|x items IH]; intros joined; cbn [py_join].
  - intros [= <-]. now exists [].
  - destruct x as [| | | |n| |]; try discriminate.
    destruct items as [|y items].
    + intros [= <-]. now exists [n].
    + destruct (py_join sep (y :: items)) as [r|] eqn:E; cbn [rbind];
        [|discriminate].
      intros [= <-]. destruct (IH r eq_refl) as (names & E1 & E2).
      exists (n :: names). cbn [map]. rewrite E1, E2. split; [reflexivity|].
      destruct names; [discriminate E1|reflexivity].
Qed.

Lemma py_get_obj (d : dict json) (k : string) (default : json) :
  py_get (JObj d) k default
  = Ok (match lookup k d with Some v => v | None => default end).
Proof. cbn. now destruct (lookup k d). Qed.

Lemma track_entry_ok (t e : json) :
  track_entry t = Ok e ->
  exists d artists,
    t = JObj d
    /\ e = JObj [("id", get_or_none d "id"); ("name", get_or_none d "name");
                 ("artists", JStr artists); ("album", nested "album" "name" d);
                 ("url", nested "external_urls" "spotify" d);
                 ("preview_url", get_or_none d "preview_url")]%string.
Proof.
  unfold track_entry. destruct t as [| | | | | |d]; try discriminate.
  rewrite !py_get_obj. cbn [rbind].
  destruct (py_iter _) as [arts|]; cbn [rbind]; [|discriminate].
  destruct (rmap _ arts) as [names|]; cbn [rbind]; [|discriminate].
  destruct (py_join _ names) as [joined|]; cbn [rbind]; [|discriminate].
  assert (K : forall (v : option json) (k : string) (rest : json -> result json),
             (x <- py_get (match v with Some a => a | None => JObj [] end)
                          k JNull ;; rest x)%result = Ok e ->
             v = None /\ rest JNull = Ok e
             \/ exists o, v = Some (JObj o) /\ rest (get_or_none o k) = Ok e).
  { intros v k rest. destruct v as [[| | | | | |o]|]; try discriminate.
    - rewrite py_get_obj. cbn [rbind]. intros E. right. now exists o.
    - cbn. intros E. now left. }
  intros E. apply K in E.
  exists d, joined. split; [reflexivity|]. unfold nested.
  destruct E as [[LA E]|(al & LA & E)]; rewrite LA; apply K in E;
    destruct E as [[LU E]|(ur & LU & E)]; rewrite LU;
    now injection E as <-.
Qed.

(** X17.  The shape of search results.  When [search_tracks] returns, it
    returns one entry for each listed item, in order; every item was an object
    and its entry has exactly the keys [id], [name], [artists], [album],
    [url], [preview_url], with the artists as one string and the others taken
    from the item ([None] when missing). *)
Theorem search_tracks_result (query : string) (limit : Z) (w : World)
  (s s' : Sys) (tracks : list json) :
  search_tracks query limit w s = (Ok tracks, s') ->
  exists result items,
    _get search_url (Some (search_params (self s) query limit)) w s
    = (Ok result, s')
    /\ listed_items result = Ok items
    /\ length tracks = length items
    /\ Forall2 (fun t e =>
                  exists d artists,
                    t = JObj d
                    /\ e = JObj [("id", get_or_none d "id");
                                 ("name", get_or_none d "name");
                                 ("artists", JStr artists);
                                 ("album", nested "album" "name" d);
                                 ("url", nested "external_urls" "spotify" d);
                                 ("preview_url", get_or_none d "preview_url")]%string)
               items tracks.
Proof.
  cbv [search_tracks bind get_self lift]. fold search_url.
  destruct (_get search_url _ w s) as [[result|e] s1]; [|discriminate].
  intros E. assert (s1 = s') by now injection E. subst s1.
  exists result. unfold listed_items.
  destruct (py_get result "tracks" (JObj [])) as [tr|]; cbn [rbind] in *;
    [|discriminate].
  destruct (py_get tr "items" (JList [])) as [it|]; cbn [rbind] in *;
    [|discriminate].
  destruct (py_iter it) as [items|]; cbn [rbind] in *; [|discriminate].
  exists items. split; [reflexivity|]. split; [reflexivity|].
  assert (R : rmap track_entry items = Ok tracks) by now injection E.
  apply rmap_ok in R. split.
  - symmetry. exact (Forall2_length R).
  - revert R. apply Forall2_impl. intros t e. apply track_entry_ok.
Qed.

Lemma search_tracks_result_witness :
  exists tracks s',
    search_tracks "abba" 5
      (scripted [Responds (search_answer
                             [JObj [("id", JStr "t1"); ("name", JStr "SOS")]%string])]
                [])
      (fresh static_client) = (Ok tracks, s')
    /\ length tracks = 1%nat.
Proof.
  eexists. eexists. split; [vm_compute; reflexivity|].
  destruct (search_tracks_result "abba" 5
              (scripted [Responds (search_answer
                                     [JObj [("id", JStr "t1");
                                            ("name", JStr "SOS")]%string])] [])
              (fresh static_client) _ _ eq_refl)
    as (found & items & G & L & N & _).
  reflexivity.
Defined.

Lemma search_tracks_unfold (query : string) (limit : Z) (w : World) (s : Sys) :
  search_tracks query limit w s
  = match _get search_url (Some (search_params (self s) query limit)) w s with
    | (Raise e, s') => (Raise e, s')
    | (Ok found, s') =>
        ((items <- listed_items found ;; rmap track_entry items)%result, s')
    end.
Proof.
  cbv [search_tracks bind get_self lift]. fold search_url.
  destruct (_get search_url _ w s) as [[found|e] s']; [|reflexivity].
  unfold listed_items.
  destruct (py_get found "tracks" (JObj [])) as [tr|]; cbn [rbind]; [|reflexivity].
  now destruct (py_get tr "items" (JList [])).
Qed.

(** X18.  Answers without tracks.  When the answer of the search is an
    object without [tracks], or with a [tracks] object without [items],
    [search_tracks] returns the empty list; when the answer is no object, or
    [tracks] is [null], it raises [AttributeError]; when [items] is [null] it
    raises [TypeError]. *)
Theorem search_tracks_without_items (query : string) (limit : Z) (w : World)
  (s s' : Sys) (found : json) :
  _get search_url (Some (search_params (self s) query limit)) w s
  = (Ok found, s') ->
  let out := search_tracks query limit w s in
  (forall d, found = JObj d -> lookup "tracks"%string d = None ->
             out = (Ok [], s'))
  /\ (forall d tr, found = JObj d ->
                   lookup "tracks"%string d = Some (JObj tr) ->
                   lookup "items"%string tr = None ->
                   out = (Ok [], s'))
  /\ (forall d tr, found = JObj d ->
                   lookup "tracks"%string d = Some (JObj tr) ->
                   lookup "items"%string tr = Some (JList []) ->
                   out = (Ok [], s'))
  /\ ((forall d, found <> JObj d) -> out = (Raise AttributeError, s'))
  /\ (forall d, found = JObj d -> lookup "tracks"%string d = Some JNull ->
                out = (Raise AttributeError, s'))
  /\ (forall d tr, found = JObj d ->
                   lookup "tracks"%string d = Some (JObj tr) ->
                   lookup "items"%string tr = Some JNull ->
                   out = (Raise TypeError, s')).
Proof.
  intros G out. subst out. rewrite search_tracks_unfold, G.
  unfold listed_items. repeat apply conj.
  - intros d -> L. cbn [py_get]. now rewrite L.
  - intros d tr -> L I. cbn [py_get]. rewrite L. cbn [rbind py_get].
    now rewrite I.
  - intros d tr -> L I. cbn [py_get]. rewrite L. cbn [rbind py_get].
    now rewrite I.
  - intros N. destruct found; try reflexivity. now destruct (N kvs).
  - intros d -> L. cbn [py_get]. now rewrite L.
  - intros d tr -> L I. cbn [py_get]. rewrite L. cbn [rbind py_get].
    now rewrite I.
Qed.

Lemma search_tracks_without_items_witness :
  search_tracks "abba" 5
    (scripted [Responds (mkResponse 200 EmptyString (Some (JObj [])))] [])
    (fresh static_client)
  = (Ok [],
     snd (_get search_url (Some (search_params static_client "abba" 5))
               (scripted [Responds (mkResponse 200 EmptyString (Some (JObj [])))] [])
               (fresh static_client))).
Proof.
  apply (proj1 (search_tracks_without_items "abba" 5
                  (scripted [Responds (mkResponse 200 EmptyString (Some (JObj [])))]
                            [])
                  (fresh static_client) _ (JObj []) eq_refl) [] eq_refl eq_refl).
Defined.

Lemma artist_names (arts : list json) :
  Forall is_object arts ->
  rmap (fun a => py_get a "name" (JStr EmptyString)) arts
  = Ok (map artist_name arts).
Proof.
  induction 1 as [|a arts [ad ->] _ IH]; [reflexivity|].
  cbn [rmap map]. rewrite py_get_obj, IH. reflexivity.
Qed.

Lemma py_join_not_str (sep : string) (items : list json) :
  Exists (fun v => forall n, v <> JStr n) items ->
  py_join sep items = Raise TypeError.
Proof.
  induction items as [|x items IH]; intros E; [inversion E|].
  cbn [py_join]. destruct x as [| | | |n| |]; try reflexivity.
  inversion E as [? ? B|? ? B]; subst; [now destruct (B n)|].
  rewrite (IH B). destruct items; [inversion B|reflexivity].
Qed.

(** X19.  The artists of a track.  For an item whose [artists] are objects
    (and whose [album] and [external_urls] are objects or absent), the entry's
    [artists] is the names joined with a comma and a space, an artist without
    [name] counting as the empty string; an artist whose [name] is present
    but not a string (such as [null]) makes the entry, and with it the whole
    search, fail with [TypeError]. *)
Theorem track_artists (d : dict json) (arts : list json) :
  lookup "artists"%string d = Some (JList arts) ->
  Forall is_object arts ->
  object_or_absent "album" d ->
  object_or_absent "external_urls" d ->
  (forall names,
      map artist_name arts = map JStr names ->
      track_entry (JObj d)
      = Ok (JObj [("id", get_or_none d "id"); ("name", get_or_none d "name");
                  ("artists", JStr (String.concat ", " names));
                  ("album", nested "album" "name" d);
                  ("url", nested "external_urls" "spotify" d);
                  ("preview_url", get_or_none d "preview_url")]%string))
  /\ (Exists (fun a => forall n, artist_name a <> JStr n) arts ->
      track_entry (JObj d) = Raise TypeError
      /\ forall before after,
           Forall (fun t => exists e, track_entry t = Ok e) before ->
           rmap track_entry (before ++ JObj d :: after) = Raise TypeError).
Proof.
  intros LA O AL EU.
  assert (P : track_entry (JObj d)
              = (joined <- py_join ", " (map artist_name arts) ;;
                 Ok (JObj [("id", get_or_none d "id");
                           ("name", get_or_none d "name");
                           ("artists", JStr joined);
                           ("album", nested "album" "name" d);
                           ("url", nested "external_urls" "spotify" d);
                           ("preview_url", get_or_none d "preview_url")]%string))%result).
  { unfold track_entry. rewrite !py_get_obj. cbn [rbind]. rewrite LA.
    cbn [py_iter rbind]. rewrite (artist_names arts O). cbn [rbind].
    destruct (py_join ", " (map artist_name arts)) as [joined|]; cbn [rbind];
      [|reflexivity].
    unfold nested, get_or_none.
    destruct AL as [AL|(al & AL)]; rewrite AL;
      destruct EU as [EU|(eu & EU)]; rewrite EU;
      rewrite ?py_get_obj; reflexivity. }
  split.
  - intros names E. rewrite P, E, py_join_strings. reflexivity.
  - intros B.
    assert (T : track_entry (JObj d) = Raise TypeError).
    { rewrite P, py_join_not_str; [reflexivity|].
      apply Exists_exists in B as (a & I & N). apply Exists_exists.
      exists (artist_name a). split; [now apply in_map|exact N]. }
    split; [exact T|].
    intros before after F. induction F as [|t before [e E] _ IH].
    + cbn [app rmap]. now rewrite T.
    + cbn [app rmap]. rewrite E. cbn [rbind]. now rewrite IH.
Qed.

Lemma track_artists_witness :
  track_entry (JObj [("id", JStr "t1");
                     ("artists", JList [JObj [("name", JStr "Agnetha")];
                                        JObj [];
                                        JObj [("name", JStr "Frida")]])]%string)
  = Ok (JObj [("id", JStr "t1"); ("name", JNull);
              ("artists", JStr "Agnetha, , Frida"); ("album", JNull);
              ("url", JNull); ("preview_url", JNull)]%string)
  /\ track_entry (JObj [("artists", JList [JObj [("name", JNull)]])]%string)
     = Raise TypeError.
Proof.
  split.
  - apply (proj1 (track_artists
                    [("id", JStr "t1");
                     ("artists", JList [JObj [("name", JStr "Agnetha")];
                                        JObj [];
                                        JObj [("name", JStr "Frida")]])]%string
                    _ eq_refl
                    ltac:(repeat constructor; eexists; reflexivity)
                    (or_introl eq_refl) (or_introl eq_refl))
             ["Agnetha"; EmptyString; "Frida"]%string eq_refl).
  - apply (proj2 (track_artists
                    [("artists", JList [JObj [("name", JNull)]])]%string
                    _ eq_refl
                    ltac:(repeat constructor; eexists; reflexivity)
                    (or_introl eq_refl) (or_introl eq_refl))).
    constructor. intros n. discriminate.
Defined.
